(** * Typed array allocation macros of [c_lib/include/array.h]

    The header defines four function-like macros

      #define malloc_complex128(m) (complex128 * )malloc(m * sizeof(complex128))
      #define malloc_complex64(m) (complex64 * )malloc(m * sizeof(complex64))
      #define malloc_float(m) (float * )malloc(m * sizeof(float))
      #define malloc_double(m) (double * )malloc(m * sizeof(double))

    A macro is a piece of token text, so the embedding keeps it as one: the
    replacement list of each macro is transcribed token by token, a call is
    expanded by substituting the argument tokens for the parameter, the
    resulting tokens are parsed with the precedence rules of C expressions,
    and the expression is evaluated over a model of the address-width
    arithmetic and of the platform allocator.  The allocator is a parameter
    of the evaluation: [malloc] below is one allocator, and what depends on
    the placement or the content of blocks is stated for every allocator
    that meets the contract of [malloc]. *)

From Stdlib Require Import ZArith List String Bool Lia.
Import ListNotations.
Local Open Scope string_scope.
Local Open Scope list_scope.
Local Open Scope Z_scope.

(** ** Element types *)

(** The four element types named by the macros.  The specification calls them
    Real32, Real64, Complex64 and Complex128. *)
Inductive ctype : Type :=
| float
| double
| complex64
| complex128.

Definition Real32 : ctype := float.
Definition Real64 : ctype := double.
Definition Complex64 : ctype := complex64.
Definition Complex128 : ctype := complex128.

(** Modelled from the spec: the typedefs of [complex64] and [complex128] are
    not part of array.h.  The data model of the specification gives Complex64
    as a pair of Real32 (real, imaginary) and Complex128 as a pair of Real64;
    [float] and [double] are the 4-byte and 8-byte IEEE-754 formats. *)
Definition components (t : ctype) : list ctype :=
  match t with
  | float => [float]
  | double => [double]
  | complex64 => [float; float]
  | complex128 => [double; double]
  end.

(** Modelled from the spec: the byte sizes of the two scalar formats, which
    the header takes from the platform (4-byte single and 8-byte double
    precision); a complex type has no scalar size of its own. *)
Definition scalar_size (t : ctype) : Z :=
  match t with
  | float => 4
  | double => 8
  | complex64 => 0
  | complex128 => 0
  end.

(** [sizeof(t)]: the sizes of the scalar components, laid out one after the
    other. *)
Definition size_of (t : ctype) : Z :=
  fold_right (fun c acc => scalar_size c + acc) 0 (components t).

(** ** Operators of lower precedence than [+] and [-] *)

(** The binary operators of C that bind less tightly than the additive ones:
    shifts, relations, equalities, the bitwise and the logical operators. *)
Inductive lowop : Type :=
| Shl | Shr                 (* << >> *)
| Lt | Gt | Le | Ge         (* < > <= >= *)
| Eq | Ne                   (* == != *)
| BAnd                      (* & *)
| BXor                      (* ^ *)
| BOr                       (* | *)
| LAnd                      (* && *)
| LOr.                      (* || *)

(** Their levels in the grammar, counted downwards from the additive level:
    1 for the shifts, 8 for the logical or. *)
Definition rank (o : lowop) : nat :=
  match o with
  | Shl | Shr => 1
  | Lt | Gt | Le | Ge => 2
  | Eq | Ne => 3
  | BAnd => 4
  | BXor => 5
  | BOr => 6
  | LAnd => 7
  | LOr => 8
  end.

(** ** Tokens and macros *)

Inductive token : Type :=
| TId (x : string)          (* identifier: a variable, a function, a macro parameter *)
| TNum (k : Z)              (* integer constant *)
| TType (t : ctype)         (* type name *)
| TSizeof                   (* sizeof *)
| TLParen                   (* ( *)
| TRParen                   (* ) *)
| TPlus                     (* + *)
| TMinus                    (* - *)
| TStar                     (* * *)
| TOp (o : lowop)           (* an operator of lower precedence than + and - *)
| TQuestion                 (* ? *)
| TColon.                   (* : *)

(** A function-like macro of one parameter. *)
Record macro : Type := Macro {
  param : string;
  body : list token
}.

(** [#define malloc_complex128(m) (complex128 * )malloc(m * sizeof(complex128))] *)
Definition malloc_complex128 : macro :=
  Macro "m"
    [TLParen; TType complex128; TStar; TRParen; TId "malloc"; TLParen;
     TId "m"; TStar; TSizeof; TLParen; TType complex128; TRParen; TRParen].

(** [#define malloc_complex64(m) (complex64 * )malloc(m * sizeof(complex64))] *)
Definition malloc_complex64 : macro :=
  Macro "m"
    [TLParen; TType complex64; TStar; TRParen; TId "malloc"; TLParen;
     TId "m"; TStar; TSizeof; TLParen; TType complex64; TRParen; TRParen].

(** [#define malloc_float(m) (float * )malloc(m * sizeof(float))] *)
Definition malloc_float : macro :=
  Macro "m"
    [TLParen; TType float; TStar; TRParen; TId "malloc"; TLParen;
     TId "m"; TStar; TSizeof; TLParen; TType float; TRParen; TRParen].

(** [#define malloc_double(m) (double * )malloc(m * sizeof(double))] *)
Definition malloc_double : macro :=
  Macro "m"
    [TLParen; TType double; TStar; TRParen; TId "malloc"; TLParen;
     TId "m"; TStar; TSizeof; TLParen; TType double; TRParen; TRParen].

(** The entry point for each element type. *)
Definition entry_point (t : ctype) : macro :=
  match t with
  | float => malloc_float
  | double => malloc_double
  | complex64 => malloc_complex64
  | complex128 => malloc_complex128
  end.

(** Macro replacement: every occurrence of the parameter in the replacement
    list is replaced by the tokens of the argument, as they are. *)
Definition subst_token (x : string) (arg : list token) (t : token) : list token :=
  match t with
  | TId y => if String.eqb x y then arg else [t]
  | _ => [t]
  end.

Definition expand (mc : macro) (arg : list token) : list token :=
  flat_map (subst_token (param mc) arg) (body mc).

(** ** Expressions *)

Inductive binop : Type :=
| Add
| Sub
| Mul.

Inductive expr : Type :=
| EVar (x : string)
| ENum (k : Z)
| ESizeof (t : ctype)                  (* sizeof(t) *)
| ECast (t : ctype) (e : expr)         (* (t * )e *)
| ECall (f : string) (a : expr)        (* f(a) *)
| EBin (op : binop) (l r : expr)
| ELow (o : lowop) (l r : expr)
| ECond (c a b : expr).                (* c ? a : b *)

(** ** Parser

    Recursive descent over the grammar of C expressions restricted to the
    tokens above:

      conditional    ::= level-8 [ ? conditional : conditional ]
      level-(n+1)    ::= level-n { operator-of-rank-(n+1) level-n }
      level-0        ::= additive
      additive       ::= multiplicative { (+|-) multiplicative }
      multiplicative ::= cast { * cast }
      cast           ::= ( type * ) cast | sizeof ( type )
                       | identifier ( conditional )
                       | identifier | constant | ( conditional )

    Assignment, the comma operator and the unary operators are not part of
    it.  Every function consumes one unit of fuel per call. *)

Definition parsed : Type := option (expr * list token).

Fixpoint parse_expr (n : nat) (ts : list token) {struct n} : parsed :=
  match n with
  | O => None
  | S n' =>
    match parse_low n' 8 ts with
    | Some (c, TQuestion :: ts1) =>
      match parse_expr n' ts1 with
      | Some (a, TColon :: ts2) =>
        match parse_expr n' ts2 with
        | Some (b, rest) => Some (ECond c a b, rest)
        | None => None
        end
      | _ => None
      end
    | other => other
    end
  end
with parse_low (n : nat) (lv : nat) (ts : list token) {struct n} : parsed :=
  match n with
  | O => None
  | S n' =>
    match lv with
    | O => parse_add n' ts
    | S lv' =>
      match parse_low n' lv' ts with
      | Some (l, rest) => low_tail n' lv' l rest
      | None => None
      end
    end
  end
with low_tail (n : nat) (lv' : nat) (l : expr) (ts : list token) {struct n}
  : parsed :=
  match n with
  | O => None
  | S n' =>
    match ts with
    | TOp o :: ts' =>
      if Nat.eqb (rank o) (S lv') then
        match parse_low n' lv' ts' with
        | Some (r, rest) => low_tail n' lv' (ELow o l r) rest
        | None => None
        end
      else Some (l, ts)
    | _ => Some (l, ts)
    end
  end
with parse_add (n : nat) (ts : list token) {struct n} : parsed :=
  match n with
  | O => None
  | S n' =>
    match parse_mul n' ts with
    | Some (l, rest) => add_tail n' l rest
    | None => None
    end
  end
with add_tail (n : nat) (l : expr) (ts : list token) {struct n} : parsed :=
  match n with
  | O => None
  | S n' =>
    match ts with
    | TPlus :: ts' =>
      match parse_mul n' ts' with
      | Some (r, rest) => add_tail n' (EBin Add l r) rest
      | None => None
      end
    | TMinus :: ts' =>
      match parse_mul n' ts' with
      | Some (r, rest) => add_tail n' (EBin Sub l r) rest
      | None => None
      end
    | _ => Some (l, ts)
    end
  end
with parse_mul (n : nat) (ts : list token) {struct n} : parsed :=
  match n with
  | O => None
  | S n' =>
    match parse_cast n' ts with
    | Some (l, rest) => mul_tail n' l rest
    | None => None
    end
  end
with mul_tail (n : nat) (l : expr) (ts : list token) {struct n} : parsed :=
  match n with
  | O => None
  | S n' =>
    match ts with
    | TStar :: ts' =>
      match parse_cast n' ts' with
      | Some (r, rest) => mul_tail n' (EBin Mul l r) rest
      | None => None
      end
    | _ => Some (l, ts)
    end
  end
with parse_cast (n : nat) (ts : list token) {struct n} : parsed :=
  match n with
  | O => None
  | S n' =>
    match ts with
    | TLParen :: TType t :: TStar :: TRParen :: ts' =>
      match parse_cast n' ts' with
      | Some (e, rest) => Some (ECast t e, rest)
      | None => None
      end
    | TLParen :: TType _ :: _ => None
    | TLParen :: ts' =>
      match parse_expr n' ts' with
      | Some (e, TRParen :: rest) => Some (e, rest)
      | _ => None
      end
    | TSizeof :: TLParen :: TType t :: TRParen :: ts' => Some (ESizeof t, ts')
    | TId f :: TLParen :: ts' =>
      match parse_expr n' ts' with
      | Some (a, TRParen :: rest) => Some (ECall f a, rest)
      | _ => None
      end
    | TId x :: ts' => Some (EVar x, ts')
    | TNum k :: ts' => Some (ENum k, ts')
    | _ => None
    end
  end.

(** Sixty-four steps per token are more than any call chain of the parser
    takes. *)
Definition fuel_of (ts : list token) : nat := 64 * List.length ts + 64.

(** A token list is an expression when the parser consumes all of it. *)
Definition parse (ts : list token) : option expr :=
  match parse_expr (fuel_of ts) ts with
  | Some (e, []) => Some e
  | _ => None
  end.

Example parse_float_n :
  parse (expand malloc_float [TId "n"])
  = Some (ECast float (ECall "malloc" (EBin Mul (EVar "n") (ESizeof float)))).
Proof. reflexivity. Qed.

Example parse_float_a_plus_b :
  parse (expand malloc_float [TId "a"; TPlus; TId "b"])
  = Some (ECast float (ECall "malloc"
            (EBin Add (EVar "a") (EBin Mul (EVar "b") (ESizeof float))))).
Proof. reflexivity. Qed.

Example parse_float_shift :
  parse (expand malloc_float [TNum 1; TOp Shl; TId "k"])
  = Some (ECast float (ECall "malloc"
            (ELow Shl (ENum 1) (EBin Mul (EVar "k") (ESizeof float))))).
Proof. reflexivity. Qed.

Example parse_float_conditional :
  parse (expand malloc_float
           [TId "c"; TQuestion; TId "a"; TColon; TId "b"])
  = Some (ECast float (ECall "malloc"
            (ECond (EVar "c") (EVar "a")
               (EBin Mul (EVar "b") (ESizeof float))))).
Proof. reflexivity. Qed.

(** What the first token of the rest of the input continues: a call (4), a
    product (1), a sum (0), a chain of rank [r] ([- r]), a conditional (-9),
    or nothing (-10). *)
Definition next_rank (ts : list token) : Z :=
  match ts with
  | TLParen :: _ => 4
  | TStar :: _ => 1
  | TPlus :: _ | TMinus :: _ => 0
  | TOp o :: _ => - Z.of_nat (rank o)
  | TQuestion :: _ => -9
  | _ => -10
  end.

Definition starts_type (ts : list token) : bool :=
  match ts with
  | TType _ :: _ => true
  | _ => false
  end.

(** ** Printer

    The canonical token text of an expression: an operand is parenthesised
    exactly when its operator binds less tightly than its position asks.
    Positions and binding strengths are numbered 3 for what binds tighter
    than a cast, 2 for a cast, 1 for a product, 0 for a sum, [- r] for an
    operator of rank [r], and -9 for a conditional. *)

Definition prec (op : binop) : nat :=
  match op with
  | Add | Sub => 0
  | Mul => 1
  end.

Definition op_token (op : binop) : token :=
  match op with
  | Add => TPlus
  | Sub => TMinus
  | Mul => TStar
  end.

Definition lowpos (o : lowop) : Z := - Z.of_nat (rank o).

Definition level (e : expr) : Z :=
  match e with
  | EBin op _ _ => Z.of_nat (prec op)
  | ELow o _ _ => lowpos o
  | ECond _ _ _ => -9
  | ECast _ _ => 2
  | _ => 3
  end.

Fixpoint show (p : Z) (e : expr) : list token :=
  let text :=
    match e with
    | EVar x => [TId x]
    | ENum k => [TNum k]
    | ESizeof t => [TSizeof; TLParen; TType t; TRParen]
    | ECast t e' => [TLParen; TType t; TStar; TRParen] ++ show 2 e'
    | ECall f a => [TId f; TLParen] ++ show (-9) a ++ [TRParen]
    | EBin op l r =>
      show (Z.of_nat (prec op)) l ++ [op_token op]
      ++ show (Z.of_nat (prec op) + 1) r
    | ELow o l r => show (lowpos o) l ++ [TOp o] ++ show (lowpos o + 1) r
    | ECond c a b =>
      show (-8) c ++ [TQuestion] ++ show (-9) a ++ [TColon] ++ show (-9) b
    end in
  if level e <? p then [TLParen] ++ text ++ [TRParen] else text.

(** The expression that the tokens of [e], written at position [p] and
    followed by [* sizeof(k)], stand for: the size multiplies the last
    operand that is not closed off by parentheses. *)
Fixpoint attach (k : ctype) (p : Z) (e : expr) : expr :=
  if level e <? p then EBin Mul e (ESizeof k)
  else
    match e with
    | EBin Add l r => EBin Add l (EBin Mul r (ESizeof k))
    | EBin Sub l r => EBin Sub l (EBin Mul r (ESizeof k))
    | ELow o l r => ELow o l (attach k (lowpos o + 1) r)
    | ECond c a b => ECond c a (attach k (-9) b)
    | _ => EBin Mul e (ESizeof k)
    end.

(** ** Address-width arithmetic and the platform allocator *)

(** What the macros leave to the platform: the width of [size_t] and of
    addresses, whether [malloc(0)] answers with a null pointer (the C standard
    leaves the choice to the implementation), and where the heap ends. *)
Record platform : Type := Platform {
  addr_bits : Z;
  malloc0_null : bool;
  heap_end : Z
}.

(** Unsigned arithmetic of [size_t]: values are reduced modulo [2 ^ addr_bits]. *)
Definition wrap (p : platform) (z : Z) : Z := z mod 2 ^ addr_bits p.

(** The heap: the live blocks (base address, size in bytes) most recent first,
    the content of raw memory, and the sizes the allocator was asked for,
    oldest first. *)
Record heap : Type := Heap {
  blocks : list (Z * Z);
  bytes : Z -> Z;
  requests : list Z
}.

Definition NULL : Z := 0.

(** First address above every live block; a block of size zero occupies one
    byte, so that its address is not handed out again. *)
Fixpoint top (bl : list (Z * Z)) : Z :=
  match bl with
  | [] => 1
  | (b, s) :: bl' => Z.max (b + Z.max s 1) (top bl')
  end.

(** [malloc(n)] of <stdlib.h>, which the header includes, modelled after its
    contract in the C standard: a null pointer when the request cannot be
    satisfied, otherwise the address of a fresh block of [n] bytes disjoint
    from every live block.  Memory is handed out as it is: no byte is
    written.  Blocks are placed one after the other; alignment is left
    out. *)
Definition malloc (p : platform) (n : Z) (h : heap) : Z * heap :=
  let refused := Heap (blocks h) (bytes h) (requests h ++ [n]) in
  if (n =? 0) && malloc0_null p then (NULL, refused)
  else
    let a := top (blocks h) in
    if a + Z.max n 1 <=? heap_end p
    then (a, Heap ((a, n) :: blocks h) (bytes h) (requests h ++ [n]))
    else (NULL, refused).

(** Size of the live block based at [a]. *)
Fixpoint block_size (bl : list (Z * Z)) (a : Z) : option Z :=
  match bl with
  | [] => None
  | (b, s) :: bl' => if b =? a then Some s else block_size bl' a
  end.

(** Reading and writing one byte of raw memory. *)
Definition load (h : heap) (a : Z) : Z := bytes h a.

Definition store (h : heap) (a v : Z) : heap :=
  Heap (blocks h) (fun x => if x =? a then v else bytes h x) (requests h).

(** ** Allocators

    The macros call whatever [malloc] the platform links in.  An allocator
    takes the size asked for and the heap, and answers with an address (or
    null) and the heap it leaves. *)

Definition allocator : Type := Z -> heap -> Z * heap.

(** Two blocks are apart when one ends before the other starts; a block of
    size zero counts as one byte. *)
Definition apart (a n b s : Z) : Prop :=
  a + Z.max n 1 <= b \/ b + Z.max s 1 <= a.

(** The contract of [malloc] in the C standard, as far as blocks and their
    contents go: a block that is handed out is recorded with the size asked
    for, is apart from every live block, and no byte of a live block changes.
    Nothing is said about where the block lies or what it holds. *)
Record conforming (al : allocator) : Prop := Conforming {
  conf_null : forall n h,
    fst (al n h) = NULL -> blocks (snd (al n h)) = blocks h;
  conf_block : forall n h,
    fst (al n h) <> NULL ->
    blocks (snd (al n h)) = (fst (al n h), n) :: blocks h;
  conf_apart : forall n h b s,
    fst (al n h) <> NULL -> In (b, s) (blocks h) ->
    apart (fst (al n h)) n b s;
  conf_live : forall n h b s i,
    In (b, s) (blocks h) -> 0 <= i < s ->
    bytes (snd (al n h)) (b + i) = bytes h (b + i)
}.

(** An allocator that places blocks as [malloc] above does and fills every
    block it hands out with the byte [v]. *)
Definition fill (f : Z -> Z) (a n v : Z) : Z -> Z :=
  fun x => if (a <=? x) && (x <? a + n) then v else f x.

Definition malloc_fill (p : platform) (v : Z) : allocator :=
  fun n h =>
    let (a, h') := malloc p n h in
    if a =? NULL then (a, h')
    else (a, Heap (blocks h') (fill (bytes h') a n v) (requests h')).

(** An allocator that works downwards from the end of the heap: a new block
    lies below every live block. *)
Fixpoint bottom (limit : Z) (bl : list (Z * Z)) : Z :=
  match bl with
  | [] => limit
  | (b, _) :: bl' => Z.min b (bottom limit bl')
  end.

Definition malloc_down (p : platform) : allocator :=
  fun n h =>
    let refused := Heap (blocks h) (bytes h) (requests h ++ [n]) in
    if (n =? 0) && malloc0_null p then (NULL, refused)
    else
      let a := bottom (heap_end p) (blocks h) - Z.max n 1 in
      if 1 <=? a
      then (a, Heap ((a, n) :: blocks h) (bytes h) (requests h ++ [n]))
      else (NULL, refused).

(** ** Evaluation *)

Inductive value : Type :=
| VInt (z : Z)                         (* a size_t *)
| VPtr (t : option ctype) (a : Z).     (* a pointer to t, or to void *)

Definition env : Type := string -> Z.

Definition arith (p : platform) (op : binop) (a b : Z) : Z :=
  match op with
  | Add => wrap p (a + b)
  | Sub => wrap p (a - b)
  | Mul => wrap p (a * b)
  end.

(** A scalar is true when it is not zero. *)
Definition truth (v : value) : bool :=
  match v with
  | VInt z => negb (z =? 0)
  | VPtr _ a => negb (a =? NULL)
  end.

Definition flag (b : bool) : Z := if b then 1 else 0.

(** The lower operators on two [size_t] operands.  A shift by the width or
    more has no defined result. *)
Definition low_arith (p : platform) (o : lowop) (a b : Z) : option Z :=
  match o with
  | Shl =>
    if (0 <=? b) && (b <? addr_bits p) then Some (wrap p (Z.shiftl a b))
    else None
  | Shr =>
    if (0 <=? b) && (b <? addr_bits p) then Some (wrap p (Z.shiftr a b))
    else None
  | Lt => Some (flag (a <? b))
  | Gt => Some (flag (b <? a))
  | Le => Some (flag (a <=? b))
  | Ge => Some (flag (b <=? a))
  | Eq => Some (flag (a =? b))
  | Ne => Some (flag (negb (a =? b)))
  | BAnd => Some (wrap p (Z.land a b))
  | BXor => Some (wrap p (Z.lxor a b))
  | BOr => Some (wrap p (Z.lor a b))
  | LAnd => Some (flag (negb (a =? 0) && negb (b =? 0)))
  | LOr => Some (flag (negb (a =? 0) || negb (b =? 0)))
  end.

(** Integer operands are taken at type [size_t], the type that the
    multiplication by [sizeof] converts them to.  The only function known is
    [malloc], which is the allocator [al]; operands are evaluated left to
    right, and [&&], [||] and [?:] evaluate only the operands they need. *)
Fixpoint eval_with (al : allocator) (p : platform) (rho : env) (e : expr)
  (h : heap) : option (value * heap) :=
  match e with
  | EVar x => Some (VInt (wrap p (rho x)), h)
  | ENum k => Some (VInt (wrap p k), h)
  | ESizeof t => Some (VInt (size_of t), h)
  | ECast t e' =>
    match eval_with al p rho e' h with
    | Some (VPtr _ a, h') => Some (VPtr (Some t) a, h')
    | Some (VInt z, h') => Some (VPtr (Some t) z, h')
    | None => None
    end
  | ECall f a =>
    if String.eqb f "malloc" then
      match eval_with al p rho a h with
      | Some (VInt n, h') =>
        let (r, h'') := al n h' in Some (VPtr None r, h'')
      | _ => None
      end
    else None
  | EBin op l r =>
    match eval_with al p rho l h with
    | Some (VInt a, h1) =>
      match eval_with al p rho r h1 with
      | Some (VInt b, h2) => Some (VInt (arith p op a b), h2)
      | _ => None
      end
    | _ => None
    end
  | ELow LAnd l r =>
    match eval_with al p rho l h with
    | Some (vl, h1) =>
      if truth vl then
        match eval_with al p rho r h1 with
        | Some (vr, h2) => Some (VInt (flag (truth vr)), h2)
        | None => None
        end
      else Some (VInt 0, h1)
    | None => None
    end
  | ELow LOr l r =>
    match eval_with al p rho l h with
    | Some (vl, h1) =>
      if truth vl then Some (VInt 1, h1)
      else
        match eval_with al p rho r h1 with
        | Some (vr, h2) => Some (VInt (flag (truth vr)), h2)
        | None => None
        end
    | None => None
    end
  | ELow o l r =>
    match eval_with al p rho l h with
    | Some (VInt a, h1) =>
      match eval_with al p rho r h1 with
      | Some (VInt b, h2) =>
        match low_arith p o a b with
        | Some z => Some (VInt z, h2)
        | None => None
        end
      | _ => None
      end
    | _ => None
    end
  | ECond c a b =>
    match eval_with al p rho c h with
    | Some (vc, h1) =>
      if truth vc then eval_with al p rho a h1 else eval_with al p rho b h1
    | None => None
    end
  end.

(** Evaluation on the platform's [malloc]. *)
Definition eval (p : platform) (rho : env) (e : expr) (h : heap)
  : option (value * heap) :=
  eval_with (malloc p) p rho e h.

(** A macro call [mc(arg)]: expansion, parsing, evaluation. *)
Definition invoke_with (al : allocator) (p : platform) (mc : macro)
  (arg : list token) (rho : env) (h : heap) : option (value * heap) :=
  match parse (expand mc arg) with
  | Some e => eval_with al p rho e h
  | None => None
  end.

Definition invoke (p : platform) (mc : macro) (arg : list token)
  (rho : env) (h : heap) : option (value * heap) :=
  invoke_with (malloc p) p mc arg rho h.

Definition no_vars : env := fun _ => 0.

(** [allocate(count, K)] as the code has it: the call [malloc_K(count)] of the
    entry point of [K] on a constant of value [count]. *)
Definition allocate_with (al : allocator) (p : platform) (count : Z)
  (k : ctype) (h : heap) : option (value * heap) :=
  invoke_with al p (entry_point k) [TNum count] no_vars h.

Definition allocate (p : platform) (count : Z) (k : ctype) (h : heap)
  : option (value * heap) :=
  allocate_with (malloc p) p count k h.

(** The same call on a variable [x] of the caller. *)
Definition allocate_var (p : platform) (x : string) (k : ctype)
  (rho : env) (h : heap) : option (value * heap) :=
  invoke p (entry_point k) [TId x] rho h.

(** The bytes that [allocate(count, k)] asks the allocator for. *)
Definition request_size (p : platform) (count : Z) (k : ctype) : Z :=
  wrap p (count * size_of k).

(** ** The operation as the specification words it

    "compute bytes = count x size_of(kind); request bytes of raw memory from
    the platform allocator; interpret the returned region as an array of
    kind", the product being taken "on the host's address-width arithmetic",
    which is also the width of the size that the allocator accepts. *)
Definition generic_allocate (p : platform) (count : Z) (kind : ctype)
  (h : heap) : value * heap :=
  let nbytes := wrap p (count * size_of kind) in
  let (region, h') := malloc p nbytes h in
  (VPtr (Some kind) region, h').

(** The one replacement list that the four macros instantiate. *)
Definition generic_macro (kind : ctype) : macro :=
  Macro "m"
    [TLParen; TType kind; TStar; TRParen; TId "malloc"; TLParen;
     TId "m"; TStar; TSizeof; TLParen; TType kind; TRParen; TRParen].

(** ** Arguments of a macro call *)

(** Arithmetic expressions: variables, constants and [sizeof] under [+], [-]
    and [*].  They evaluate to a [size_t] on every platform and leave the
    heap alone. *)
Fixpoint pure (e : expr) : bool :=
  match e with
  | EVar _ | ENum _ | ESizeof _ => true
  | EBin _ l r => pure l && pure r
  | ECast _ _ | ECall _ _ | ELow _ _ _ | ECond _ _ _ => false
  end.

Fixpoint value_of (p : platform) (rho : env) (e : expr) : Z :=
  match e with
  | EVar x => wrap p (rho x)
  | ENum k => wrap p k
  | ESizeof t => size_of t
  | EBin op l r => arith p op (value_of p rho l) (value_of p rho r)
  | ECast _ _ | ECall _ _ | ELow _ _ _ | ECond _ _ _ => 0
  end.

(** The value of an argument taken on its own, and what it means for a call
    to keep the count-times-element-size contract on it: the allocator is
    asked for that value times [size_of k]. *)
Definition arg_value (p : platform) (rho : env) (arg : list token) (h : heap)
  : option Z :=
  match parse arg with
  | Some e =>
    match eval p rho e h with
    | Some (VInt v, _) => Some v
    | _ => None
    end
  | None => None
  end.

Definition keeps_contract (p : platform) (k : ctype) (arg : list token)
  (rho : env) (h : heap) : Prop :=
  exists v,
    arg_value p rho arg h = Some v /\
    invoke p (entry_point k) arg rho h =
    Some (VPtr (Some k) (fst (malloc p (wrap p (v * size_of k)) h)),
          snd (malloc p (wrap p (v * size_of k)) h)).

(** A primary expression: an identifier, a constant, or an expression in
    parentheses. *)
Definition primary_arg (ts : list token) : bool :=
  match ts with
  | [TId _] | [TNum _] => true
  | TLParen :: ts' =>
    match parse_cast (fuel_of ts) ts with
    | Some (_, []) => negb (starts_type ts')
    | _ => false
    end
  | _ => false
  end.

Example primary_paren :
  primary_arg [TLParen; TId "a"; TPlus; TId "b"; TRParen] = true.
Proof. reflexivity. Qed.

Example primary_not_two_groups :
  primary_arg [TLParen; TId "a"; TRParen; TStar; TLParen; TId "b"; TRParen]
  = false.
Proof. reflexivity. Qed.

(** ** Two platforms and an empty heap, for examples *)

Definition lp64 : platform := Platform 64 false (2 ^ 47).
Definition ilp32 : platform := Platform 32 false (2 ^ 31).
Definition lp64_null0 : platform := Platform 64 true (2 ^ 47).

Definition empty_heap : heap := Heap [] (fun _ => 0) [].

(** Raw memory that holds the byte 0xAA everywhere. *)
Definition dirty_heap : heap := Heap [] (fun _ => 170) [].

(** * Properties of the parser *)

Section ParserFacts.

(** One unfolding of each parsing function. *)
Lemma parse_expr_S (n : nat) (ts : list token) :
  parse_expr (S n) ts =
  match parse_low n 8 ts with
  | Some (c, TQuestion :: ts1) =>
    match parse_expr n ts1 with
    | Some (a, TColon :: ts2) =>
      match parse_expr n ts2 with
      | Some (b, rest) => Some (ECond c a b, rest)
      | None => None
      end
    | _ => None
    end
  | other => other
  end.
Proof. reflexivity. Qed.

Lemma parse_low_0 (n : nat) (ts : list token) :
  parse_low (S n) 0 ts = parse_add n ts.
Proof. reflexivity. Qed.

Lemma parse_low_S (n lv : nat) (ts : list token) :
  parse_low (S n) (S lv) ts =
  match parse_low n lv ts with
  | Some (l, rest) => low_tail n lv l rest
  | None => None
  end.
Proof. reflexivity. Qed.

Lemma parse_add_S (n : nat) (ts : list token) :
  parse_add (S n) ts =
  match parse_mul n ts with
  | Some (l, rest) => add_tail n l rest
  | None => None
  end.
Proof. reflexivity. Qed.

Lemma parse_mul_S (n : nat) (ts : list token) :
  parse_mul (S n) ts =
  match parse_cast n ts with
  | Some (l, rest) => mul_tail n l rest
  | None => None
  end.
Proof. reflexivity. Qed.

Lemma rank_range (o : lowop) : (1 <= rank o <= 8)%nat.
Proof. destruct o; simpl; lia. Qed.

Lemma level_range (e : expr) : -9 <= level e <= 3.
Proof.
  destruct e as [x|z|t|t e|f a|op l r|o l r|c a b]; simpl; try lia.
  - destruct op; simpl; lia.
  - unfold lowpos. pose proof (rank_range o). lia.
Qed.

(** Where the chains stop. *)
Lemma mul_tail_stop (n : nat) (l : expr) (ts : list token) :
  next_rank ts <> 1 -> mul_tail (S n) l ts = Some (l, ts).
Proof.
  destruct ts as [|t ts]; [reflexivity|].
  destruct t; simpl; intros H; try reflexivity. contradiction.
Qed.

Lemma add_tail_stop (n : nat) (l : expr) (ts : list token) :
  next_rank ts <> 0 -> add_tail (S n) l ts = Some (l, ts).
Proof.
  destruct ts as [|t ts]; [reflexivity|].
  destruct t; simpl; intros H; try reflexivity; contradiction.
Qed.

Lemma low_tail_S_op (n lv : nat) (o : lowop) (l : expr) (ts : list token) :
  low_tail (S n) lv l (TOp o :: ts) =
  if Nat.eqb (rank o) (S lv) then
    match parse_low n lv ts with
    | Some (r, rest) => low_tail n lv (ELow o l r) rest
    | None => None
    end
  else Some (l, TOp o :: ts).
Proof. reflexivity. Qed.

Lemma low_tail_stop (n lv : nat) (l : expr) (ts : list token) :
  next_rank ts <> - Z.of_nat (S lv) -> low_tail (S n) lv l ts = Some (l, ts).
Proof.
  destruct ts as [|t ts]; [reflexivity|].
  destruct t; try reflexivity.
  intros H. rewrite low_tail_S_op.
  destruct (Nat.eqb_spec (rank o) (S lv)) as [E|E]; [|reflexivity].
  exfalso. apply H. simpl. rewrite E. reflexivity.
Qed.

Lemma low_tail_op (n lv : nat) (o : lowop) (l : expr) (ts : list token) :
  rank o = S lv ->
  low_tail (S n) lv l (TOp o :: ts) =
  match parse_low n lv ts with
  | Some (r, rest) => low_tail n lv (ELow o l r) rest
  | None => None
  end.
Proof. intros H. rewrite low_tail_S_op, H, Nat.eqb_refl. reflexivity. Qed.

Lemma mul_tail_star (n : nat) (l : expr) (ts : list token) :
  mul_tail (S n) l (TStar :: ts) =
  match parse_cast n ts with
  | Some (r, rest) => mul_tail n (EBin Mul l r) rest
  | None => None
  end.
Proof. reflexivity. Qed.

Lemma add_tail_op (n : nat) (op : binop) (l : expr) (ts : list token) :
  prec op = 0%nat ->
  add_tail (S n) l (op_token op :: ts) =
  match parse_mul n ts with
  | Some (r, rest) => add_tail n (EBin op l r) rest
  | None => None
  end.
Proof. destruct op; simpl; intros H; try reflexivity; discriminate. Qed.

Lemma parse_expr_plain (n : nat) (ts : list token) (e : expr)
  (rest : list token) :
  parse_low n 8 ts = Some (e, rest) -> next_rank rest <> -9 ->
  parse_expr (S n) ts = Some (e, rest).
Proof.
  intros H Hq. rewrite parse_expr_S, H.
  destruct rest as [|t rest]; [reflexivity|].
  destruct t; try reflexivity. exfalso. apply Hq. reflexivity.
Qed.

Lemma parse_cast_atom_var (n : nat) (x : string) (ts : list token) :
  next_rank ts <> 4 -> parse_cast (S n) (TId x :: ts) = Some (EVar x, ts).
Proof.
  destruct ts as [|t ts]; [reflexivity|].
  destruct t; simpl; intros H; try reflexivity. contradiction.
Qed.

Lemma parse_cast_call (n : nat) (f : string) (ts : list token) :
  parse_cast (S n) (TId f :: TLParen :: ts) =
  match parse_expr n ts with
  | Some (a, TRParen :: rest) => Some (ECall f a, rest)
  | _ => None
  end.
Proof. reflexivity. Qed.

Lemma parse_cast_cast (n : nat) (t : ctype) (ts : list token) :
  parse_cast (S n) (TLParen :: TType t :: TStar :: TRParen :: ts) =
  match parse_cast n ts with
  | Some (e, rest) => Some (ECast t e, rest)
  | None => None
  end.
Proof. reflexivity. Qed.

Lemma parse_cast_paren (n : nat) (ts : list token) :
  starts_type ts = false ->
  parse_cast (S n) (TLParen :: ts) =
  match parse_expr n ts with
  | Some (e, TRParen :: rest) => Some (e, rest)
  | _ => None
  end.
Proof.
  destruct ts as [|t ts]; [reflexivity|].
  destruct t; simpl; intros H; try reflexivity; discriminate.
Qed.

(** The text of an expression, with and without parentheses. *)
Lemma show_unfold (p : Z) (e : expr) :
  show p e =
  if level e <? p then [TLParen] ++ show (level e) e ++ [TRParen]
  else show (level e) e.
Proof. destruct e; simpl; rewrite ?Z.ltb_irrefl; reflexivity. Qed.

Lemma show_plain (p : Z) (e : expr) : p <= level e -> show p e = show (-9) e.
Proof.
  intros H. pose proof (level_range e) as Hr.
  rewrite (show_unfold p e), (show_unfold (-9) e).
  destruct (Z.ltb_spec (level e) p); destruct (Z.ltb_spec (level e) (-9));
    try reflexivity; lia.
Qed.

Lemma show_paren (p : Z) (e : expr) :
  level e < p -> show p e = [TLParen] ++ show (-9) e ++ [TRParen].
Proof.
  intros H. pose proof (level_range e) as Hr.
  rewrite (show_unfold p e), (show_unfold (-9) e).
  destruct (Z.ltb_spec (level e) p); destruct (Z.ltb_spec (level e) (-9));
    try reflexivity; lia.
Qed.

Lemma show_bin_text (op : binop) (l r : expr) :
  show (-9) (EBin op l r) =
  show (Z.of_nat (prec op)) l ++ [op_token op]
  ++ show (Z.of_nat (prec op) + 1) r.
Proof. destruct op; reflexivity. Qed.

Lemma show_low_text (o : lowop) (l r : expr) :
  show (-9) (ELow o l r) =
  show (lowpos o) l ++ [TOp o] ++ show (lowpos o + 1) r.
Proof. destruct o; reflexivity. Qed.

(** Two positions on the same side of the level give the same text. *)
Lemma show_same (p q : Z) (e : expr) :
  (level e < p /\ level e < q) \/ (p <= level e /\ q <= level e) ->
  show p e = show q e.
Proof.
  intros [[A B]|[A B]].
  - rewrite (show_paren p e A), (show_paren q e B). reflexivity.
  - rewrite (show_plain p e A), (show_plain q e B). reflexivity.
Qed.

(** The text of an expression never starts with a type name. *)
Lemma show_starts (p : Z) (e : expr) (rest : list token) :
  starts_type (show p e ++ rest) = false.
Proof.
  revert p rest;
    induction e as [x|z|t|t e IH|f a IH|op l IHl r IHr|o l IHl r IHr
                   |c IHc a IHa b IHb];
    intros p rest; simpl; destruct (Z.ltb _ p); simpl; try reflexivity.
  - rewrite <- app_assoc. apply IHl.
  - rewrite <- app_assoc. apply IHl.
  - rewrite <- app_assoc. apply IHc.
Qed.

(** [f] settles on [r] from [k]: every amount of fuel from [k] on gives [r]. *)
Definition settles (f : nat -> parsed) (k : nat) (r : parsed) : Prop :=
  forall n, (k <= n)%nat -> f n = r.

Lemma settles_more (f : nat -> parsed) (k k' : nat) (r : parsed) :
  (k <= k')%nat -> settles f k r -> settles f k' r.
Proof. intros Hk H n Hn. apply H. lia. Qed.

(** The chain that a level continues with: sums at level 0, the operators of
    rank [lv] at level [lv]. *)
Definition tail_at (n lv : nat) (e : expr) (ts : list token) : parsed :=
  match lv with
  | O => add_tail n e ts
  | S lv' => low_tail n lv' e ts
  end.

Lemma tail_at_stop (n lv : nat) (e : expr) (ts : list token) :
  next_rank ts <> - Z.of_nat lv -> tail_at (S n) lv e ts = Some (e, ts).
Proof.
  destruct lv as [|lv]; simpl tail_at; intros H.
  - apply add_tail_stop. exact H.
  - apply low_tail_stop. exact H.
Qed.

(** From one level of the parser to the next looser one, on any tokens. *)
Lemma lift_mul (ts : list token) (c k : nat) (e : expr) (rest : list token)
  (r : parsed) :
  settles (fun n => parse_cast n ts) c (Some (e, rest)) ->
  settles (fun n => mul_tail n e rest) k r ->
  settles (fun n => parse_mul n ts) (c + k + 1) r.
Proof.
  intros Hc Hk n Hn. destruct n as [|n]; [lia|].
  rewrite parse_mul_S, (Hc n) by lia. apply Hk. lia.
Qed.

Lemma lift_add (ts : list token) (c k : nat) (e : expr) (rest : list token)
  (r : parsed) :
  settles (fun n => parse_mul n ts) c (Some (e, rest)) ->
  settles (fun n => add_tail n e rest) k r ->
  settles (fun n => parse_add n ts) (c + k + 1) r.
Proof.
  intros Hc Hk n Hn. destruct n as [|n]; [lia|].
  rewrite parse_add_S, (Hc n) by lia. apply Hk. lia.
Qed.

Lemma lift_low0 (ts : list token) (c : nat) (r : parsed) :
  settles (fun n => parse_add n ts) c r ->
  settles (fun n => parse_low n 0 ts) (S c) r.
Proof.
  intros Hc n Hn. destruct n as [|n]; [lia|].
  rewrite parse_low_0. apply Hc. lia.
Qed.

Lemma lift_low (ts : list token) (lv c k : nat) (e : expr)
  (rest : list token) (r : parsed) :
  settles (fun n => parse_low n lv ts) c (Some (e, rest)) ->
  settles (fun n => low_tail n lv e rest) k r ->
  settles (fun n => parse_low n (S lv) ts) (c + k + 1) r.
Proof.
  intros Hc Hk n Hn. destruct n as [|n]; [lia|].
  rewrite parse_low_S, (Hc n) by lia. apply Hk. lia.
Qed.

Lemma lift_expr (ts : list token) (c : nat) (e : expr) (rest : list token) :
  settles (fun n => parse_low n 8 ts) c (Some (e, rest)) ->
  next_rank rest <> -9 ->
  settles (fun n => parse_expr n ts) (S c) (Some (e, rest)).
Proof.
  intros Hc Hq n Hn. destruct n as [|n]; [lia|].
  apply parse_expr_plain; [apply Hc; lia|exact Hq].
Qed.

(** Once a level has read an expression and nothing continues it, every
    looser level reads the same. *)
Lemma finish_low (ts : list token) (lv c : nat) (e : expr)
  (rest : list token) (d : nat) :
  settles (fun n => parse_low n lv ts) c (Some (e, rest)) ->
  next_rank rest <= -10 -> (lv + d <= 8)%nat ->
  settles (fun n => parse_low n (lv + d) ts) (c + 2 * d) (Some (e, rest)).
Proof.
  intros Hc Hq. induction d as [|d IH]; intros Hd.
  - rewrite Nat.add_0_r. eapply settles_more; [|exact Hc]. lia.
  - replace (lv + S d)%nat with (S (lv + d)) by lia.
    eapply settles_more;
      [|apply (lift_low ts (lv + d) _ 1 e rest _ (IH ltac:(lia)))].
    + lia.
    + intros m Hm. destruct m as [|m]; [lia|]. apply low_tail_stop. lia.
Qed.

Lemma finish_add (ts : list token) (c : nat) (e : expr) (rest : list token) :
  settles (fun n => parse_add n ts) c (Some (e, rest)) ->
  next_rank rest <= -10 ->
  settles (fun n => parse_expr n ts) (c + 18) (Some (e, rest)).
Proof.
  intros Hc Hq.
  pose proof (finish_low ts 0 (S c) e rest 8 (lift_low0 ts c _ Hc) Hq
                ltac:(lia)) as H8.
  eapply settles_more; [|apply (lift_expr ts _ e rest H8)]; simpl; lia.
Qed.

Lemma finish_mul (ts : list token) (c : nat) (e : expr) (rest : list token) :
  settles (fun n => parse_mul n ts) c (Some (e, rest)) ->
  next_rank rest <= -10 ->
  settles (fun n => parse_expr n ts) (c + 20) (Some (e, rest)).
Proof.
  intros Hc Hq.
  assert (Ha : settles (fun n => parse_add n ts) (c + 1 + 1) (Some (e, rest))).
  { apply (lift_add ts c 1 e rest _ Hc).
    intros m Hm. destruct m as [|m]; [lia|]. apply add_tail_stop. lia. }
  eapply settles_more; [|apply (finish_add ts _ e rest Ha Hq)]. lia.
Qed.

(** What it means for the text of [e] to be read back at each level, with
    [c] units of fuel for [e] itself.  At the chain levels the text may be
    followed by more operands, so the statement is about the whole chain. *)
Definition cast_ok (c : nat) (e : expr) : Prop :=
  forall rest, next_rank rest <= 2 ->
    settles (fun n => parse_cast n (show 2 e ++ rest)) c (Some (e, rest)).

Definition mul_ok (c : nat) (e : expr) : Prop :=
  forall rest k r, next_rank rest <= 1 ->
    settles (fun n => mul_tail n e rest) k r ->
    settles (fun n => parse_mul n (show 1 e ++ rest)) (k + c) r.

Definition add_ok (c : nat) (e : expr) : Prop :=
  forall rest k r, next_rank rest <= 0 ->
    settles (fun n => add_tail n e rest) k r ->
    settles (fun n => parse_add n (show 0 e ++ rest)) (k + c) r.

Definition low_ok (lv c : nat) (e : expr) : Prop :=
  forall rest k r, next_rank rest <= - Z.of_nat lv ->
    settles (fun n => tail_at n lv e rest) k r ->
    settles (fun n => parse_low n lv (show (- Z.of_nat lv) e ++ rest))
      (k + c) r.

Definition expr_ok (c : nat) (e : expr) : Prop :=
  forall rest, next_rank rest <= -10 ->
    settles (fun n => parse_expr n (show (-9) e ++ rest)) c (Some (e, rest)).

Lemma cast_ok_more (c c' : nat) (e : expr) :
  (c <= c')%nat -> cast_ok c e -> cast_ok c' e.
Proof. intros Hc H rest Hr. eapply settles_more; [|apply H; exact Hr]. lia. Qed.

Lemma mul_ok_more (c c' : nat) (e : expr) :
  (c <= c')%nat -> mul_ok c e -> mul_ok c' e.
Proof.
  intros Hc H rest k r Hr Hs.
  eapply settles_more; [|apply (H rest k r Hr Hs)]. lia.
Qed.

Lemma add_ok_more (c c' : nat) (e : expr) :
  (c <= c')%nat -> add_ok c e -> add_ok c' e.
Proof.
  intros Hc H rest k r Hr Hs.
  eapply settles_more; [|apply (H rest k r Hr Hs)]. lia.
Qed.

Lemma low_ok_more (lv c c' : nat) (e : expr) :
  (c <= c')%nat -> low_ok lv c e -> low_ok lv c' e.
Proof.
  intros Hc H rest k r Hr Hs.
  eapply settles_more; [|apply (H rest k r Hr Hs)]. lia.
Qed.

Lemma expr_ok_more (c c' : nat) (e : expr) :
  (c <= c')%nat -> expr_ok c e -> expr_ok c' e.
Proof. intros Hc H rest Hr. eapply settles_more; [|apply H; exact Hr]. lia. Qed.

(** An operand that is not a product is read by the cast level. *)
Lemma mul_of_cast (c : nat) (e : expr) :
  level e <> 1 -> cast_ok c e -> mul_ok (S c) e.
Proof.
  intros Hl H rest k r Hr Hs.
  rewrite (show_same 1 2 e) by lia.
  eapply settles_more; [|apply (lift_mul _ c k e rest r (H rest ltac:(lia)) Hs)].
  lia.
Qed.

(** An operand that is not a sum is read by the multiplicative level. *)
Lemma add_of_mul (c : nat) (e : expr) :
  level e <> 0 -> mul_ok c e -> add_ok (c + 2) e.
Proof.
  intros Hl H rest k r Hr Hs.
  rewrite (show_same 0 1 e) by lia.
  assert (Hm : settles (fun n => parse_mul n (show 1 e ++ rest)) (1 + c)
                 (Some (e, rest))).
  { apply (H rest 1%nat (Some (e, rest))); [lia|].
    intros m Hm. destruct m as [|m]; [lia|]. apply mul_tail_stop. lia. }
  eapply settles_more; [|apply (lift_add _ _ k e rest r Hm Hs)]. lia.
Qed.

Lemma low0_of_add (c : nat) (e : expr) : add_ok c e -> low_ok 0 (S c) e.
Proof.
  intros H rest k r Hr Hs. simpl Z.of_nat in *. simpl Z.opp in *.
  eapply settles_more; [|apply lift_low0, (H rest k r Hr Hs)]. lia.
Qed.

(** An operand that is not a chain of rank [lv + 1] is read one level up. *)
Lemma low_step (lv c : nat) (e : expr) :
  level e <> - Z.of_nat (S lv) -> low_ok lv c e -> low_ok (S lv) (c + 2) e.
Proof.
  intros Hl H rest k r Hr Hs.
  rewrite (show_same (- Z.of_nat (S lv)) (- Z.of_nat lv) e) by lia.
  assert (Hm : settles (fun n => parse_low n lv (show (- Z.of_nat lv) e ++ rest))
                 (1 + c) (Some (e, rest))).
  { apply (H rest 1%nat (Some (e, rest))); [lia|].
    intros m Hm. destruct m as [|m]; [lia|]. apply tail_at_stop. lia. }
  eapply settles_more; [|apply (lift_low _ lv _ k e rest r Hm Hs)]. lia.
Qed.

Lemma low_climb (d lv c : nat) (e : expr) :
  low_ok lv c e ->
  level e < - Z.of_nat (lv + d) \/ - Z.of_nat lv <= level e ->
  low_ok (lv + d) (c + 2 * d) e.
Proof.
  intros H. induction d as [|d IH]; intros Hl.
  - rewrite Nat.add_0_r. eapply low_ok_more; [|exact H]. lia.
  - replace (lv + S d)%nat with (S (lv + d)) by lia.
    eapply low_ok_more; [|apply (low_step (lv + d) (c + 2 * d) e)].
    + lia.
    + lia.
    + apply IH. lia.
Qed.

Lemma expr_of_low (c : nat) (e : expr) :
  level e <> -9 -> low_ok 8 c e -> expr_ok (c + 2) e.
Proof.
  intros Hl H rest Hr. pose proof (level_range e) as Hlv.
  rewrite (show_same (-9) (- Z.of_nat 8) e) by (simpl; lia).
  assert (Hm : settles (fun n => parse_low n 8 (show (- Z.of_nat 8) e ++ rest))
                 (1 + c) (Some (e, rest))).
  { apply (H rest 1%nat (Some (e, rest))); [simpl; lia|].
    intros m Hm. destruct m as [|m]; [lia|]. apply tail_at_stop. simpl. lia. }
  eapply settles_more; [|apply (lift_expr _ _ e rest Hm)]; lia.
Qed.

(** A looser expression in operand position is read inside its
    parentheses. *)
Lemma cast_of_expr (c : nat) (e : expr) :
  level e < 2 -> expr_ok c e -> cast_ok (S c) e.
Proof.
  intros Hl H rest Hr n Hn.
  rewrite (show_paren 2 e Hl). simpl. rewrite <- app_assoc. simpl.
  destruct n as [|n]; [lia|].
  rewrite parse_cast_paren by apply show_starts.
  rewrite (H (TRParen :: rest)); [reflexivity|simpl; lia|lia].
Qed.

(** The operand forms of the cast level. *)
Lemma cast_ok_var (x : string) : cast_ok 1 (EVar x).
Proof.
  intros rest Hr n Hn. destruct n as [|n]; [lia|].
  simpl. apply parse_cast_atom_var. lia.
Qed.

Lemma cast_ok_num (z : Z) : cast_ok 1 (ENum z).
Proof. intros rest Hr n Hn. destruct n as [|n]; [lia|]. reflexivity. Qed.

Lemma cast_ok_sizeof (t : ctype) : cast_ok 1 (ESizeof t).
Proof. intros rest Hr n Hn. destruct n as [|n]; [lia|]. reflexivity. Qed.

Lemma cast_ok_cast (c : nat) (t : ctype) (e : expr) :
  cast_ok c e -> cast_ok (S c) (ECast t e).
Proof.
  intros H rest Hr n Hn. destruct n as [|n]; [lia|].
  change (show 2 (ECast t e) ++ rest)
    with (TLParen :: TType t :: TStar :: TRParen :: show 2 e ++ rest).
  rewrite parse_cast_cast, (H rest Hr n) by lia. reflexivity.
Qed.

Lemma cast_ok_call (c : nat) (f : string) (a : expr) :
  expr_ok c a -> cast_ok (S c) (ECall f a).
Proof.
  intros H rest Hr n Hn.
  change (show 2 (ECall f a))
    with (TId f :: TLParen :: show (-9) a ++ [TRParen]).
  simpl. rewrite <- app_assoc. simpl.
  destruct n as [|n]; [lia|].
  rewrite parse_cast_call.
  rewrite (H (TRParen :: rest)); [reflexivity|simpl; lia|lia].
Qed.

(** A product: the left operand starts the chain, the right one extends it. *)
Lemma mul_ok_mul (cl cr : nat) (l r : expr) :
  mul_ok cl l -> cast_ok cr r -> mul_ok (cl + cr + 1) (EBin Mul l r).
Proof.
  intros Hl Hr rest k res Hrest Hs n Hn.
  change (show 1 (EBin Mul l r)) with (show 1 l ++ [TStar] ++ show 2 r).
  rewrite <- !app_assoc. simpl.
  apply (Hl (TStar :: show 2 r ++ rest) (k + cr + 1)%nat res);
    [simpl; lia| |lia].
  intros m Hm. destruct m as [|m]; [lia|].
  rewrite mul_tail_star, (Hr rest ltac:(lia) m) by lia.
  apply Hs. lia.
Qed.

(** A sum or a difference, likewise one level up. *)
Lemma add_ok_add (cl cr : nat) (op : binop) (l r : expr) :
  prec op = 0%nat ->
  add_ok cl l -> mul_ok cr r -> add_ok (cl + cr + 2) (EBin op l r).
Proof.
  intros Hop Hl Hr rest k res Hrest Hs n Hn.
  assert (Hshow : show 0 (EBin op l r) = show 0 l ++ [op_token op] ++ show 1 r).
  { simpl. rewrite Hop. reflexivity. }
  rewrite Hshow, <- !app_assoc. simpl.
  apply (Hl (op_token op :: show 1 r ++ rest) (k + cr + 2)%nat res);
    [destruct op; try discriminate Hop; simpl; lia| |lia].
  intros m Hm. destruct m as [|m]; [lia|].
  rewrite (add_tail_op m op l _ Hop).
  rewrite (Hr rest 1%nat (Some (r, rest))).
  - apply Hs. lia.
  - lia.
  - intros j Hj. destruct j as [|j]; [lia|]. apply mul_tail_stop. lia.
  - lia.
Qed.

(** A chain of one of the lower ranks. *)
Lemma low_ok_low (lv cl cr : nat) (o : lowop) (l r : expr) :
  rank o = S lv ->
  low_ok (S lv) cl l -> low_ok lv cr r ->
  low_ok (S lv) (cl + cr + 2) (ELow o l r).
Proof.
  intros Ho Hl Hr rest k res Hrest Hs n Hn.
  assert (Hshow : show (- Z.of_nat (S lv)) (ELow o l r)
                  = show (- Z.of_nat (S lv)) l ++ [TOp o]
                    ++ show (- Z.of_nat lv) r).
  { assert (Hp : lowpos o = - Z.of_nat (S lv))
      by (unfold lowpos; rewrite Ho; reflexivity).
    rewrite show_plain by (simpl level; lia).
    rewrite show_low_text, Hp.
    replace (- Z.of_nat (S lv) + 1) with (- Z.of_nat lv) by lia.
    reflexivity. }
  rewrite Hshow, <- !app_assoc. simpl.
  apply (Hl (TOp o :: show (- Z.of_nat lv) r ++ rest) (k + cr + 2)%nat res);
    [simpl; rewrite Ho; lia| |lia].
  intros m Hm. destruct m as [|m]; [lia|].
  unfold tail_at. rewrite (low_tail_op m lv o l _ Ho).
  rewrite (Hr rest 1%nat (Some (r, rest))).
  - apply Hs. lia.
  - lia.
  - intros j Hj. destruct j as [|j]; [lia|]. apply tail_at_stop. lia.
  - lia.
Qed.

(** A conditional: the condition is a chain of the loosest rank. *)
Lemma expr_ok_cond (cc ca cb : nat) (c a b : expr) :
  low_ok 8 cc c -> expr_ok ca a -> expr_ok cb b ->
  expr_ok (cc + ca + cb + 3) (ECond c a b).
Proof.
  intros Hc Ha Hb rest Hrest n Hn.
  change (show (-9) (ECond c a b))
    with (show (-8) c ++ [TQuestion] ++ show (-9) a ++ [TColon]
          ++ show (-9) b).
  rewrite <- !app_assoc. simpl.
  destruct n as [|n]; [lia|].
  rewrite parse_expr_S.
  rewrite (Hc (TQuestion :: show (-9) a ++ TColon :: show (-9) b ++ rest)
             1%nat (Some (c, TQuestion :: show (-9) a ++ TColon
                                 :: show (-9) b ++ rest))).
  - rewrite (Ha (TColon :: show (-9) b ++ rest)); [|simpl; lia|lia].
    rewrite (Hb rest Hrest); [reflexivity|lia].
  - simpl. lia.
  - intros j Hj. destruct j as [|j]; [lia|]. apply tail_at_stop. simpl. lia.
  - lia.
Qed.

(** All levels at once. *)
Definition all_ok (c : nat) (e : expr) : Prop :=
  cast_ok c e /\ mul_ok c e /\ add_ok c e /\
  (forall lv, (lv <= 8)%nat -> low_ok lv c e) /\ expr_ok c e.

(** From the level an expression belongs to, every level follows: the looser
    ones read the same text, the tighter ones read it in parentheses. *)
Lemma lows_of_add (c : nat) (e : expr) :
  0 <= level e -> add_ok c e ->
  forall lv, (lv <= 8)%nat -> low_ok lv (c + 17) e.
Proof.
  intros Hl H lv Hlv.
  pose proof (low_climb lv 0 (S c) e (low0_of_add c e H)) as Hc.
  change (0 + lv)%nat with lv in Hc.
  eapply low_ok_more; [|apply Hc]; simpl; lia.
Qed.

Lemma all_of_cast (c : nat) (e : expr) :
  2 <= level e -> cast_ok c e -> all_ok (c + 40) e.
Proof.
  intros Hl H2.
  assert (H1 : mul_ok (S c) e) by (apply mul_of_cast; [lia|exact H2]).
  assert (H0 : add_ok (S c + 2) e) by (apply add_of_mul; [lia|exact H1]).
  pose proof (lows_of_add _ e ltac:(lia) H0) as HL.
  assert (HE : expr_ok (S c + 2 + 17 + 2) e)
    by (apply expr_of_low; [lia|apply HL; lia]).
  repeat split.
  - eapply cast_ok_more; [|exact H2]; lia.
  - eapply mul_ok_more; [|exact H1]; lia.
  - eapply add_ok_more; [|exact H0]; lia.
  - intros lv Hlv. eapply low_ok_more; [|apply (HL lv Hlv)]; lia.
  - eapply expr_ok_more; [|exact HE]; lia.
Qed.

Lemma all_of_mul (c : nat) (e : expr) :
  level e = 1 -> mul_ok c e -> all_ok (c + 40) e.
Proof.
  intros Hl H1.
  assert (H0 : add_ok (c + 2) e) by (apply add_of_mul; [lia|exact H1]).
  pose proof (lows_of_add _ e ltac:(lia) H0) as HL.
  assert (HE : expr_ok (c + 2 + 17 + 2) e)
    by (apply expr_of_low; [lia|apply HL; lia]).
  assert (H2 : cast_ok (S (c + 2 + 17 + 2)) e)
    by (apply cast_of_expr; [lia|exact HE]).
  repeat split.
  - eapply cast_ok_more; [|exact H2]; lia.
  - eapply mul_ok_more; [|exact H1]; lia.
  - eapply add_ok_more; [|exact H0]; lia.
  - intros lv Hlv. eapply low_ok_more; [|apply (HL lv Hlv)]; lia.
  - eapply expr_ok_more; [|exact HE]; lia.
Qed.

Lemma all_of_add (c : nat) (e : expr) :
  level e = 0 -> add_ok c e -> all_ok (c + 40) e.
Proof.
  intros Hl H0.
  pose proof (lows_of_add _ e ltac:(lia) H0) as HL.
  assert (HE : expr_ok (c + 17 + 2) e)
    by (apply expr_of_low; [lia|apply HL; lia]).
  assert (H2 : cast_ok (S (c + 17 + 2)) e)
    by (apply cast_of_expr; [lia|exact HE]).
  assert (H1 : mul_ok (S (S (c + 17 + 2))) e)
    by (apply mul_of_cast; [lia|exact H2]).
  repeat split.
  - eapply cast_ok_more; [|exact H2]; lia.
  - eapply mul_ok_more; [|exact H1]; lia.
  - eapply add_ok_more; [|exact H0]; lia.
  - intros lv Hlv. eapply low_ok_more; [|apply (HL lv Hlv)]; lia.
  - eapply expr_ok_more; [|exact HE]; lia.
Qed.

(** From the cast level down to the sums, for an expression that is looser
    than a sum and therefore in parentheses at all three. *)
Lemma tight_of_expr (c : nat) (e : expr) :
  level e < 0 -> expr_ok c e ->
  cast_ok (c + 1) e /\ mul_ok (c + 2) e /\ add_ok (c + 4) e /\
  low_ok 0 (c + 5) e.
Proof.
  intros Hl HE.
  assert (H2 : cast_ok (S c) e) by (apply cast_of_expr; [lia|exact HE]).
  assert (H1 : mul_ok (S (S c)) e) by (apply mul_of_cast; [lia|exact H2]).
  assert (H0 : add_ok (S (S c) + 2) e) by (apply add_of_mul; [lia|exact H1]).
  pose proof (low0_of_add _ e H0) as HL.
  repeat split.
  - eapply cast_ok_more; [|exact H2]; lia.
  - eapply mul_ok_more; [|exact H1]; lia.
  - eapply add_ok_more; [|exact H0]; lia.
  - eapply low_ok_more; [|exact HL]; lia.
Qed.

Lemma all_of_low (h c : nat) (e : expr) :
  level e = - Z.of_nat (S h) -> (S h <= 8)%nat ->
  low_ok (S h) c e -> all_ok (c + 60) e.
Proof.
  intros Hl Hh HH.
  assert (H8 : low_ok 8 (c + 2 * (8 - S h)) e).
  { replace 8%nat with (S h + (8 - S h))%nat at 1 by lia.
    apply low_climb; [exact HH|lia]. }
  assert (HE : expr_ok (c + 2 * (8 - S h) + 2) e)
    by (apply expr_of_low; [lia|exact H8]).
  destruct (tight_of_expr _ e ltac:(lia) HE) as [H2 [H1 [H0 HL0]]].
  repeat split.
  - eapply cast_ok_more; [|exact H2]; lia.
  - eapply mul_ok_more; [|exact H1]; lia.
  - eapply add_ok_more; [|exact H0]; lia.
  - intros lv Hlv. destruct (le_lt_dec (S h) lv) as [Hge|Hlt].
    + replace lv with (S h + (lv - S h))%nat by lia.
      eapply low_ok_more; [|apply low_climb; [exact HH|lia]]. lia.
    + pose proof (low_climb lv 0 _ e HL0 ltac:(lia)) as Hc.
      change (0 + lv)%nat with lv in Hc. eapply low_ok_more; [|exact Hc]. lia.
  - eapply expr_ok_more; [|exact HE]; lia.
Qed.

Lemma all_of_expr (c : nat) (e : expr) :
  level e = -9 -> expr_ok c e -> all_ok (c + 60) e.
Proof.
  intros Hl HE.
  destruct (tight_of_expr _ e ltac:(lia) HE) as [H2 [H1 [H0 HL0]]].
  repeat split.
  - eapply cast_ok_more; [|exact H2]; lia.
  - eapply mul_ok_more; [|exact H1]; lia.
  - eapply add_ok_more; [|exact H0]; lia.
  - intros lv Hlv. pose proof (low_climb lv 0 _ e HL0 ltac:(lia)) as Hc.
    change (0 + lv)%nat with lv in Hc. eapply low_ok_more; [|exact Hc]. lia.
  - eapply expr_ok_more; [|exact HE]; lia.
Qed.

Lemma all_ok_more (c c' : nat) (e : expr) :
  (c <= c')%nat -> all_ok c e -> all_ok c' e.
Proof.
  intros Hc [H2 [H1 [H0 [HL HE]]]]. repeat split.
  - eapply cast_ok_more; eassumption.
  - eapply mul_ok_more; eassumption.
  - eapply add_ok_more; eassumption.
  - intros lv Hlv. eapply low_ok_more; [exact Hc|apply HL; exact Hlv].
  - eapply expr_ok_more; eassumption.
Qed.

(** Fuel that reads the text of [e] back at any level. *)
Fixpoint need (e : expr) : nat :=
  match e with
  | EVar _ | ENum _ | ESizeof _ => 64
  | ECast _ e' => need e' + 64
  | ECall _ a => need a + 64
  | EBin _ l r => need l + need r + 64
  | ELow _ l r => need l + need r + 64
  | ECond c a b => need c + need a + need b + 64
  end.

Lemma read_back (e : expr) : all_ok (need e) e.
Proof.
  induction e as [x|z|t|t e IH|f a IH|op l IHl r IHr|o l IHl r IHr
                 |c IHc a IHa b IHb].
  - eapply all_ok_more; [|apply (all_of_cast 1); [simpl; lia|apply cast_ok_var]].
    simpl; lia.
  - eapply all_ok_more; [|apply (all_of_cast 1); [simpl; lia|apply cast_ok_num]].
    simpl; lia.
  - eapply all_ok_more;
      [|apply (all_of_cast 1); [simpl; lia|apply cast_ok_sizeof]].
    simpl; lia.
  - destruct IH as [IH2 _].
    eapply all_ok_more;
      [|apply (all_of_cast (S (need e)));
        [simpl; lia|apply cast_ok_cast; exact IH2]].
    simpl; lia.
  - destruct IH as [_ [_ [_ [_ IHE]]]].
    eapply all_ok_more;
      [|apply (all_of_cast (S (need a)));
        [simpl; lia|apply cast_ok_call; exact IHE]].
    simpl; lia.
  - destruct IHl as [_ [IHl1 [IHl0 _]]]. destruct IHr as [IHr2 [IHr1 _]].
    destruct (Nat.eq_dec (prec op) 0) as [Hop|Hop].
    + eapply all_ok_more;
        [|apply (all_of_add (need l + need r + 2));
          [simpl; rewrite Hop; reflexivity
          |apply (add_ok_add _ _ op l r Hop IHl0 IHr1)]].
      simpl; lia.
    + assert (op = Mul) by (destruct op; simpl in Hop; congruence). subst op.
      eapply all_ok_more;
        [|apply (all_of_mul (need l + need r + 1));
          [reflexivity|apply (mul_ok_mul _ _ l r IHl1 IHr2)]].
      simpl; lia.
  - destruct IHl as [_ [_ [_ [IHlL _]]]]. destruct IHr as [_ [_ [_ [IHrL _]]]].
    pose proof (rank_range o) as Hr.
    destruct (rank o) as [|h] eqn:Ho; [lia|].
    eapply all_ok_more;
      [|apply (all_of_low h (need l + need r + 2));
        [simpl; unfold lowpos; rewrite Ho; reflexivity|lia
        |apply (low_ok_low h _ _ o l r Ho);
          [apply IHlL; lia|apply IHrL; lia]]].
    simpl; lia.
  - destruct IHc as [_ [_ [_ [IHcL _]]]].
    destruct IHa as [_ [_ [_ [_ IHaE]]]]. destruct IHb as [_ [_ [_ [_ IHbE]]]].
    eapply all_ok_more;
      [|apply (all_of_expr (need c + need a + need b + 3));
        [reflexivity
        |apply (expr_ok_cond _ _ _ c a b (IHcL 8%nat ltac:(lia)) IHaE IHbE)]].
    simpl; lia.
Qed.

(** The text of an expression has at least one token for every 64 units of
    fuel it needs. *)
Lemma show_length (p : Z) (e : expr) :
  (List.length (show (-9) e) <= List.length (show p e))%nat.
Proof.
  pose proof (level_range e).
  destruct (Z.lt_ge_cases (level e) p) as [A|A].
  - rewrite (show_paren p e A), !length_app. simpl. lia.
  - rewrite (show_plain p e A). lia.
Qed.

Lemma need_bound_top (e : expr) :
  (need e <= 64 * List.length (show (-9) e))%nat.
Proof.
  induction e as [x|z|t|t e IH|f a IH|op l IHl r IHr|o l IHl r IHr
                 |c IHc a IHa b IHb];
    try (simpl; lia).
  - change (show (-9) (ECast t e))
      with ([TLParen; TType t; TStar; TRParen] ++ show 2 e).
    pose proof (show_length 2 e). rewrite length_app. simpl. lia.
  - change (show (-9) (ECall f a))
      with ([TId f; TLParen] ++ show (-9) a ++ [TRParen]).
    rewrite !length_app. simpl. lia.
  - rewrite show_bin_text, !length_app. simpl.
    pose proof (show_length (Z.of_nat (prec op)) l).
    pose proof (show_length (Z.of_nat (prec op) + 1) r). lia.
  - rewrite show_low_text, !length_app. simpl.
    pose proof (show_length (lowpos o) l).
    pose proof (show_length (lowpos o + 1) r). lia.
  - change (show (-9) (ECond c a b))
      with (show (-8) c ++ [TQuestion] ++ show (-9) a ++ [TColon]
            ++ show (-9) b).
    rewrite !length_app. simpl. pose proof (show_length (-8) c). lia.
Qed.

Lemma need_bound (p : Z) (e : expr) :
  (need e <= 64 * List.length (show p e))%nat.
Proof. pose proof (need_bound_top e). pose proof (show_length p e). lia. Qed.

(** Parsing is a left inverse of printing: at the position of a whole
    expression, of a sum, and of an operand of a product. *)
Lemma parse_show_top (e : expr) : parse (show (-9) e) = Some e.
Proof.
  unfold parse, fuel_of.
  destruct (read_back e) as [_ [_ [_ [_ HE]]]].
  pose proof (need_bound (-9) e) as Hb.
  rewrite <- (app_nil_r (show (-9) e)) at 2.
  rewrite (HE [] ltac:(simpl; lia)); [reflexivity|lia].
Qed.

Lemma parse_show (e : expr) : parse (show 0 e) = Some e.
Proof.
  unfold parse, fuel_of.
  destruct (read_back e) as [_ [_ [H0 _]]].
  pose proof (need_bound 0 e) as Hb.
  assert (Ha : settles (fun n => parse_add n (show 0 e ++ [])) (1 + need e)
                 (Some (e, []))).
  { apply (H0 [] 1%nat); [simpl; lia|].
    intros m Hm. destruct m as [|m]; [lia|]. reflexivity. }
  pose proof (finish_add _ _ e [] Ha ltac:(simpl; lia)) as HE.
  rewrite app_nil_r in HE. rewrite HE; [reflexivity|lia].
Qed.

Lemma parse_show_operand (e : expr) : parse (show 1 e) = Some e.
Proof.
  unfold parse, fuel_of.
  destruct (read_back e) as [_ [H1 _]].
  pose proof (need_bound 1 e) as Hb.
  assert (Hm : settles (fun n => parse_mul n (show 1 e ++ [])) (1 + need e)
                 (Some (e, []))).
  { apply (H1 [] 1%nat); [simpl; lia|].
    intros m Hm. destruct m as [|m]; [lia|]. reflexivity. }
  pose proof (finish_mul _ _ e [] Hm ltac:(simpl; lia)) as HE.
  rewrite app_nil_r in HE. rewrite HE; [reflexivity|lia].
Qed.

End ParserFacts.

(** * Expansion of the entry points *)

(** The argument lands between [malloc(] and [* sizeof(k))] as it is. *)
Lemma expand_entry_point (k : ctype) (arg : list token) :
  expand (entry_point k) arg =
  [TLParen; TType k; TStar; TRParen; TId "malloc"; TLParen] ++ arg ++
  [TStar; TSizeof; TLParen; TType k; TRParen; TRParen].
Proof. destruct k; reflexivity. Qed.

(** The call that the expansion is meant to be. *)
Definition sized_call (k : ctype) (nbytes : expr) : expr :=
  ECast k (ECall "malloc" nbytes).

(** The tokens that follow the argument inside the call. *)
Definition size_tail (k : ctype) : list token :=
  [TStar; TSizeof; TLParen; TType k; TRParen].

Lemma show_sized_call (k : ctype) (e : expr) :
  show 0 (sized_call k e) =
  [TLParen; TType k; TStar; TRParen; TId "malloc"; TLParen] ++ show (-9) e
  ++ [TRParen].
Proof. reflexivity. Qed.

(** The text of an operand followed by [* sizeof(k)] is the text of their
    product. *)
Lemma show_product_of (k : ctype) (e : expr) (p : Z) :
  p <= 1 -> level e < p \/ 1 <= level e ->
  show p (EBin Mul e (ESizeof k)) = show p e ++ size_tail k.
Proof.
  intros Hp Hl.
  rewrite (show_plain p (EBin Mul e (ESizeof k))) by (simpl; lia).
  rewrite show_bin_text. rewrite (show_same p 1 e) by lia.
  reflexivity.
Qed.

Lemma attach_unfold (k : ctype) (p : Z) (e : expr) :
  attach k p e =
  if level e <? p then EBin Mul e (ESizeof k)
  else
    match e with
    | EBin Add l r => EBin Add l (EBin Mul r (ESizeof k))
    | EBin Sub l r => EBin Sub l (EBin Mul r (ESizeof k))
    | ELow o l r => ELow o l (attach k (lowpos o + 1) r)
    | ECond c a b => ECond c a (attach k (-9) b)
    | _ => EBin Mul e (ESizeof k)
    end.
Proof. destruct e; reflexivity. Qed.

(** The text of [e] followed by [* sizeof(k)] is the text of [attach k p e]. *)
Lemma show_attach (k : ctype) (e : expr) :
  forall p, p <= 1 -> show p e ++ size_tail k = show p (attach k p e).
Proof.
  induction e as [x|z|t|t e IH|f a IH|op l IHl r IHr|o l IHl r IHr
                 |c IHc a IHa b IHb];
    intros p Hp; rewrite attach_unfold;
    match goal with
    | |- context [level ?e0 <? p] =>
      destruct (Z.ltb_spec (level e0) p) as [A|A]
    end;
    try (symmetry; apply show_product_of; [exact Hp|simpl in *; lia]).
  - destruct op.
    + rewrite !(show_plain p) by (simpl in *; lia).
      rewrite !show_bin_text. simpl prec. simpl Z.of_nat.
      change (0 + 1) with 1.
      rewrite (show_product_of k r 1) by lia.
      rewrite <- !app_assoc. reflexivity.
    + rewrite !(show_plain p) by (simpl in *; lia).
      rewrite !show_bin_text. simpl prec. simpl Z.of_nat.
      change (0 + 1) with 1.
      rewrite (show_product_of k r 1) by lia.
      rewrite <- !app_assoc. reflexivity.
    + symmetry. apply show_product_of; [exact Hp|simpl; lia].
  - pose proof (rank_range o) as Hr.
    rewrite !(show_plain p) by (simpl in *; lia).
    rewrite !show_low_text.
    rewrite <- (IHr (lowpos o + 1)) by (unfold lowpos; lia).
    rewrite <- !app_assoc. reflexivity.
  - rewrite !(show_plain p) by (simpl in *; lia).
    change (show (-9) (ECond c a (attach k (-9) b)))
      with (show (-8) c ++ [TQuestion] ++ show (-9) a ++ [TColon]
            ++ show (-9) (attach k (-9) b)).
    rewrite <- (IHb (-9)) by lia.
    change (show (-9) (ECond c a b))
      with (show (-8) c ++ [TQuestion] ++ show (-9) a ++ [TColon]
            ++ show (-9) b).
    rewrite <- !app_assoc. reflexivity.
Qed.

(** An argument written on its own: the expansion is the text of
    [malloc(attach ...)]. *)
Lemma expand_arg (k : ctype) (e : expr) :
  expand (entry_point k) (show (-9) e) =
  show 0 (sized_call k (attach k (-9) e)).
Proof.
  rewrite expand_entry_point, show_sized_call.
  rewrite <- (show_attach k e (-9)) by lia.
  unfold size_tail. rewrite <- !app_assoc. reflexivity.
Qed.

(** An argument written as a multiplicative operand: the expansion is the
    text of [malloc(a * sizeof(k))]. *)
Lemma expand_operand (k : ctype) (a : expr) :
  expand (entry_point k) (show 1 a) =
  show 0 (sized_call k (EBin Mul a (ESizeof k))).
Proof.
  rewrite expand_entry_point, show_sized_call.
  rewrite show_bin_text. simpl prec. simpl Z.of_nat. change (1 + 1) with 2.
  rewrite <- !app_assoc. reflexivity.
Qed.

(** An argument written as a sum or a difference: the expansion is the text
    of [malloc(l + r * sizeof(k))]. *)
Lemma expand_sum (k : ctype) (op : binop) (l r : expr) :
  prec op = 0%nat ->
  expand (entry_point k) (show 0 (EBin op l r)) =
  show 0 (sized_call k (EBin op l (EBin Mul r (ESizeof k)))).
Proof.
  intros Hop.
  rewrite (show_plain 0 (EBin op l r)) by (simpl; rewrite Hop; simpl; lia).
  rewrite expand_arg. rewrite attach_unfold.
  destruct op; try discriminate Hop; reflexivity.
Qed.


Lemma parse_operand (k : ctype) (a : expr) :
  parse (expand (entry_point k) (show 1 a)) =
  Some (sized_call k (EBin Mul a (ESizeof k))).
Proof. rewrite expand_operand. apply parse_show. Qed.

Lemma parse_sum (k : ctype) (op : binop) (l r : expr) :
  prec op = 0%nat ->
  parse (expand (entry_point k) (show 0 (EBin op l r))) =
  Some (sized_call k (EBin op l (EBin Mul r (ESizeof k)))).
Proof. intros Hop. rewrite (expand_sum k op l r Hop). apply parse_show. Qed.

(** * Facts about the allocator and the arithmetic *)

Lemma wrap_mul_l (p : platform) (a b : Z) :
  wrap p (wrap p a * b) = wrap p (a * b).
Proof. unfold wrap. apply Zmult_mod_idemp_l. Qed.

Lemma wrap_small (p : platform) (z : Z) :
  0 <= z < 2 ^ addr_bits p -> wrap p z = z.
Proof. intros H. unfold wrap. apply Z.mod_small. exact H. Qed.

Lemma top_positive (bl : list (Z * Z)) : 1 <= top bl.
Proof. induction bl as [|[b s] bl IH]; simpl; lia. Qed.

(** The three outcomes of [malloc]. *)
Inductive malloc_outcome (p : platform) (n : Z) (h : heap) : Z * heap -> Prop :=
| malloc_zero_null :
    n = 0 -> malloc0_null p = true ->
    malloc_outcome p n h (NULL, Heap (blocks h) (bytes h) (requests h ++ [n]))
| malloc_block :
    (n = 0 -> malloc0_null p = false) ->
    top (blocks h) + Z.max n 1 <= heap_end p ->
    malloc_outcome p n h
      (top (blocks h),
       Heap ((top (blocks h), n) :: blocks h) (bytes h) (requests h ++ [n]))
| malloc_exhausted :
    (n = 0 -> malloc0_null p = false) ->
    heap_end p < top (blocks h) + Z.max n 1 ->
    malloc_outcome p n h (NULL, Heap (blocks h) (bytes h) (requests h ++ [n])).

Lemma malloc_cases (p : platform) (n : Z) (h : heap) :
  malloc_outcome p n h (malloc p n h).
Proof.
  unfold malloc.
  destruct (n =? 0) eqn:Hn; destruct (malloc0_null p) eqn:Hz; simpl.
  - apply malloc_zero_null; [lia|exact Hz].
  - destruct (Z.leb_spec (top (blocks h) + Z.max n 1) (heap_end p)).
    + apply malloc_block; [intros _; exact Hz|assumption].
    + apply malloc_exhausted; [intros _; exact Hz|assumption].
  - destruct (Z.leb_spec (top (blocks h) + Z.max n 1) (heap_end p)).
    + apply malloc_block; [lia|assumption].
    + apply malloc_exhausted; [lia|assumption].
  - destruct (Z.leb_spec (top (blocks h) + Z.max n 1) (heap_end p)).
    + apply malloc_block; [lia|assumption].
    + apply malloc_exhausted; [lia|assumption].
Qed.

Lemma malloc_requests (p : platform) (n : Z) (h : heap) :
  requests (snd (malloc p n h)) = requests h ++ [n].
Proof. destruct (malloc_cases p n h); reflexivity. Qed.

Lemma malloc_bytes (p : platform) (n : Z) (h : heap) :
  bytes (snd (malloc p n h)) = bytes h.
Proof. destruct (malloc_cases p n h); reflexivity. Qed.

(** A null answer leaves the blocks as they were; any other answer is the
    base of a new block of the size asked for, above all the others. *)
Lemma malloc_null (p : platform) (n : Z) (h : heap) :
  fst (malloc p n h) = NULL -> blocks (snd (malloc p n h)) = blocks h.
Proof.
  destruct (malloc_cases p n h); simpl; try reflexivity.
  pose proof (top_positive (blocks h)). unfold NULL. lia.
Qed.

Lemma malloc_fresh (p : platform) (n : Z) (h : heap) :
  fst (malloc p n h) <> NULL ->
  fst (malloc p n h) = top (blocks h) /\
  blocks (snd (malloc p n h)) = (top (blocks h), n) :: blocks h.
Proof.
  destruct (malloc_cases p n h); simpl; intros Hn;
    try (exfalso; apply Hn; reflexivity).
  split; reflexivity.
Qed.

Lemma malloc_block_size (p : platform) (n : Z) (h : heap) :
  fst (malloc p n h) <> NULL ->
  block_size (blocks (snd (malloc p n h))) (fst (malloc p n h)) = Some n.
Proof.
  intros Hn. destruct (malloc_fresh p n h Hn) as [Ha Hb].
  rewrite Ha, Hb. simpl. rewrite Z.eqb_refl. reflexivity.
Qed.

(** Every live block ends at or below [top]. *)
Lemma top_above (bl : list (Z * Z)) (b s : Z) :
  In (b, s) bl -> b + Z.max s 1 <= top bl.
Proof.
  induction bl as [|[b' s'] bl IH]; simpl; [contradiction|].
  intros [H|H]; [inversion H; subst; lia|]. specialize (IH H). lia.
Qed.

(** Every live block starts at or above [bottom]. *)
Lemma bottom_below (limit : Z) (bl : list (Z * Z)) (b s : Z) :
  In (b, s) bl -> bottom limit bl <= b.
Proof.
  induction bl as [|[b' s'] bl IH]; simpl; [contradiction|].
  intros [H|H]; [inversion H; subst; lia|]. specialize (IH H). lia.
Qed.

(** ** Three allocators that meet the contract *)

Lemma malloc_conforming (p : platform) : conforming (malloc p).
Proof.
  constructor.
  - intros n h. apply malloc_null.
  - intros n h Hn. destruct (malloc_fresh p n h Hn) as [Ha Hb].
    rewrite Hb, Ha. reflexivity.
  - intros n h b s Hn Hin. destruct (malloc_fresh p n h Hn) as [Ha _].
    rewrite Ha. right. apply top_above. exact Hin.
  - intros n h b s i _ _. rewrite malloc_bytes. reflexivity.
Qed.

Lemma malloc_fill_fst (p : platform) (v n : Z) (h : heap) :
  fst (malloc_fill p v n h) = fst (malloc p n h).
Proof.
  unfold malloc_fill. destruct (malloc p n h) as [a h'].
  simpl. destruct (a =? NULL); reflexivity.
Qed.

Lemma malloc_fill_blocks (p : platform) (v n : Z) (h : heap) :
  blocks (snd (malloc_fill p v n h)) = blocks (snd (malloc p n h)).
Proof.
  unfold malloc_fill. destruct (malloc p n h) as [a h'].
  simpl. destruct (a =? NULL); reflexivity.
Qed.

Lemma malloc_fill_bytes (p : platform) (v n : Z) (h : heap) (x : Z) :
  bytes (snd (malloc_fill p v n h)) x =
  if fst (malloc p n h) =? NULL then bytes h x
  else fill (bytes h) (fst (malloc p n h)) n v x.
Proof.
  pose proof (malloc_bytes p n h) as Hb.
  unfold malloc_fill. destruct (malloc p n h) as [a h'].
  simpl in *. destruct (a =? NULL); simpl; rewrite Hb; reflexivity.
Qed.

Lemma malloc_fill_conforming (p : platform) (v : Z) :
  conforming (malloc_fill p v).
Proof.
  constructor.
  - intros n h. rewrite malloc_fill_fst, malloc_fill_blocks.
    apply malloc_null.
  - intros n h Hn. rewrite malloc_fill_fst in *. rewrite malloc_fill_blocks.
    apply (conf_block _ (malloc_conforming p)). exact Hn.
  - intros n h b s Hn Hin. rewrite malloc_fill_fst in *.
    apply (conf_apart _ (malloc_conforming p)); assumption.
  - intros n h b s i Hin Hi. rewrite malloc_fill_bytes.
    destruct (Z.eqb_spec (fst (malloc p n h)) NULL) as [E|E]; [reflexivity|].
    destruct (malloc_fresh p n h E) as [Ha _].
    pose proof (top_above _ b s Hin) as Ht.
    unfold fill. rewrite Ha.
    destruct (Z.leb_spec (top (blocks h)) (b + i)); [lia|reflexivity].
Qed.

Lemma malloc_down_conforming (p : platform) : conforming (malloc_down p).
Proof.
  constructor; intros n h; unfold malloc_down;
    destruct ((n =? 0) && malloc0_null p); simpl;
    try destruct (Z.leb_spec 1 (bottom (heap_end p) (blocks h) - Z.max n 1));
    simpl; try reflexivity; unfold NULL; try lia; try congruence.
  intros b s _ Hin. left.
  pose proof (bottom_below (heap_end p) _ b s Hin). lia.
Qed.

(** * Evaluation of the entry points *)

Lemma eval_with_sized_call (al : allocator) (p : platform) (rho : env)
  (k : ctype) (e : expr) (h : heap) :
  eval_with al p rho (sized_call k e) h =
  match eval_with al p rho e h with
  | Some (VInt n, h') => Some (VPtr (Some k) (fst (al n h')), snd (al n h'))
  | _ => None
  end.
Proof.
  simpl. destruct (eval_with al p rho e h) as [[[z|t a] h']|]; try reflexivity.
  destruct (al z h'); reflexivity.
Qed.

Lemma eval_sized_call (p : platform) (rho : env) (k : ctype) (e : expr)
  (h : heap) :
  eval p rho (sized_call k e) h =
  match eval p rho e h with
  | Some (VInt n, h') =>
    Some (VPtr (Some k) (fst (malloc p n h')), snd (malloc p n h'))
  | _ => None
  end.
Proof. apply eval_with_sized_call. Qed.

Lemma eval_with_pure (al : allocator) (p : platform) (rho : env) (e : expr)
  (h : heap) :
  pure e = true -> eval_with al p rho e h = Some (VInt (value_of p rho e), h).
Proof.
  induction e as [x|z|t|t e IH|f a IH|op l IHl r IHr|o l IHl r IHr
                 |c IHc a IHa b IHb];
    simpl; intros H; try reflexivity; try discriminate.
  apply andb_true_iff in H. destruct H as [Hl Hr].
  rewrite (IHl Hl), (IHr Hr). reflexivity.
Qed.

Lemma eval_pure (p : platform) (rho : env) (e : expr) (h : heap) :
  pure e = true -> eval p rho e h = Some (VInt (value_of p rho e), h).
Proof. apply eval_with_pure. Qed.

(** A call on an argument written as an operand: the argument is evaluated,
    and the allocator is asked for its value times the element size. *)
Lemma invoke_with_operand (al : allocator) (p : platform) (k : ctype)
  (a : expr) (rho : env) (h : heap) :
  invoke_with al p (entry_point k) (show 1 a) rho h =
  match eval_with al p rho a h with
  | Some (VInt v, h') =>
    Some (VPtr (Some k) (fst (al (wrap p (v * size_of k)) h')),
          snd (al (wrap p (v * size_of k)) h'))
  | _ => None
  end.
Proof.
  unfold invoke_with. rewrite parse_operand, eval_with_sized_call. simpl.
  destruct (eval_with al p rho a h) as [[[v|t x] h']|]; reflexivity.
Qed.

Lemma allocate_with_alloc (al : allocator) (p : platform) (count : Z)
  (k : ctype) (h : heap) :
  allocate_with al p count k h =
  Some (VPtr (Some k) (fst (al (request_size p count k) h)),
        snd (al (request_size p count k) h)).
Proof.
  unfold allocate_with. change [TNum count] with (show 1 (ENum count)).
  rewrite invoke_with_operand. simpl. unfold request_size.
  rewrite wrap_mul_l. reflexivity.
Qed.

Lemma allocate_malloc (p : platform) (count : Z) (k : ctype) (h : heap) :
  allocate p count k h =
  Some (VPtr (Some k) (fst (malloc p (request_size p count k) h)),
        snd (malloc p (request_size p count k) h)).
Proof. apply allocate_with_alloc. Qed.

(** The source and the specification's wording agree: on a constant ... *)
Lemma allocate_generic (p : platform) (count : Z) (k : ctype) (h : heap) :
  allocate p count k h = Some (generic_allocate p count k h).
Proof.
  rewrite allocate_malloc. unfold generic_allocate, request_size.
  destruct (malloc p (wrap p (count * size_of k)) h); reflexivity.
Qed.

(** ... and on a variable. *)
Lemma allocate_var_generic (p : platform) (x : string) (k : ctype)
  (rho : env) (h : heap) :
  allocate_var p x k rho h = Some (generic_allocate p (rho x) k h).
Proof.
  unfold allocate_var, invoke. change [TId x] with (show 1 (EVar x)).
  rewrite invoke_with_operand. simpl. unfold generic_allocate.
  rewrite wrap_mul_l.
  destruct (malloc p (wrap p (rho x * size_of k)) h); reflexivity.
Qed.

(** * Properties of the allocation entry points *)

(** ** Buffer size *)

(** C1 (as amended). A successful [allocate(count, K)] with [count >= 0]
    yields a buffer whose byte length is [count * size_of K] reduced modulo
    [2 ^ addr_bits]; it is [count * size_of K] itself whenever that product is
    below [2 ^ addr_bits]. *)
Theorem allocate_byte_length (p : platform) (count : Z) (k : ctype)
  (h : heap) (a : Z) (h' : heap) :
  0 <= count ->
  allocate p count k h = Some (VPtr (Some k) a, h') ->
  a <> NULL ->
  block_size (blocks h') a = Some ((count * size_of k) mod 2 ^ addr_bits p) /\
  (count * size_of k < 2 ^ addr_bits p ->
   block_size (blocks h') a = Some (count * size_of k)).
Proof.
  intros Hc Ha Hn. rewrite allocate_malloc in Ha.
  injection Ha as Ha Hh. subst a h'.
  pose proof (malloc_block_size p _ h Hn) as Hb.
  split; [exact Hb|].
  intros Hlt. rewrite Hb. unfold request_size. rewrite wrap_small; [reflexivity|].
  split; [|exact Hlt]. destruct k; unfold size_of; simpl; lia.
Qed.

Lemma allocate_byte_length_witness :
  block_size [(1, 8192)] 1 = Some ((1024 * size_of double) mod 2 ^ 64) /\
  (1024 * size_of double < 2 ^ 64 ->
   block_size [(1, 8192)] 1 = Some (1024 * size_of double)).
Proof.
  apply (allocate_byte_length lp64 1024 double empty_heap 1
           (Heap [(1, 8192)] (fun _ => 0) [8192])).
  - lia.
  - reflexivity.
  - discriminate.
Defined.

(** C1 (as stated) fails where the product overflows: on a 64-bit platform
    [allocate(2^60 + 1, Complex128)] succeeds with a buffer of 16 bytes. *)
Lemma byte_length_overflow :
  0 <= 2 ^ 60 + 1 /\
  allocate lp64 (2 ^ 60 + 1) complex128 empty_heap =
    Some (VPtr (Some complex128) 1, Heap [(1, 16)] (fun _ => 0) [16]) /\
  1 <> NULL /\
  block_size [(1, 16)] 1 = Some 16 /\
  Some 16 <> Some ((2 ^ 60 + 1) * size_of complex128).
Proof.
  split; [lia|]. split; [reflexivity|]. split; [discriminate|].
  split; [reflexivity|]. discriminate.
Qed.

(** C2. The size is computed without any overflow check: the allocator is
    asked for [count * size_of K] reduced modulo [2 ^ addr_bits], its answer
    is the result of the call, and a count whose product overflows is treated
    exactly as any count with the same reduced product. *)
Theorem size_computation_unchecked (p : platform) (count : Z) (k : ctype)
  (h : heap) :
  let nbytes := (count * size_of k) mod 2 ^ addr_bits p in
  allocate p count k h =
    Some (VPtr (Some k) (fst (malloc p nbytes h)), snd (malloc p nbytes h)) /\
  requests (snd (malloc p nbytes h)) = requests h ++ [nbytes] /\
  forall count',
    (count' * size_of k) mod 2 ^ addr_bits p = nbytes ->
    allocate p count' k h = allocate p count k h.
Proof.
  intros nbytes. split; [apply allocate_malloc|].
  split; [apply malloc_requests|].
  intros count' H. rewrite !allocate_malloc. unfold request_size, wrap.
  rewrite H. reflexivity.
Qed.

(** On a 32-bit platform the count [2^28 + 1] fits an [int], and the request
    for that many [complex128] is one for 16 bytes. *)
Example overflow_accepted_ilp32 :
  allocate ilp32 (2 ^ 28 + 1) complex128 empty_heap
  = Some (VPtr (Some complex128) 1, Heap [(1, 16)] (fun _ => 0) [16]).
Proof. reflexivity. Qed.

(** ** Zero count *)

(** C3 (as amended). [allocate(0, K)] passes a request of zero bytes to the
    platform allocator and returns its answer: null where the allocator
    answers zero-size requests with null, a handle to a block of zero bytes
    where it treats them as requests of non-zero size and the heap has room,
    null where the heap has none. *)
Theorem allocate_zero_forwards (p : platform) (k : ctype) (h : heap) :
  allocate p 0 k h =
    Some (VPtr (Some k) (fst (malloc p 0 h)), snd (malloc p 0 h)) /\
  requests (snd (malloc p 0 h)) = requests h ++ [0] /\
  (if malloc0_null p then fst (malloc p 0 h) = NULL
   else if top (blocks h) + 1 <=? heap_end p
        then fst (malloc p 0 h) <> NULL /\
             block_size (blocks (snd (malloc p 0 h))) (fst (malloc p 0 h))
             = Some 0
        else fst (malloc p 0 h) = NULL).
Proof.
  split.
  { rewrite allocate_malloc. unfold request_size, wrap. simpl.
    rewrite Zmod_0_l. reflexivity. }
  split; [apply malloc_requests|].
  unfold malloc. simpl. change (Z.max 0 1) with 1.
  destruct (malloc0_null p); simpl; [reflexivity|].
  destruct (top (blocks h) + 1 <=? heap_end p); simpl; [|reflexivity].
  pose proof (top_positive (blocks h)).
  split; [unfold NULL; lia|]. rewrite Z.eqb_refl. reflexivity.
Qed.

(** C3 (as stated) fails on a platform whose [malloc(0)] is null: the call
    returns the null handle on an empty heap, where a request for one element
    succeeds. *)
Lemma zero_count_null_handle :
  allocate lp64_null0 0 float empty_heap =
    Some (VPtr (Some float) NULL, Heap [] (fun _ => 0) [0]) /\
  allocate lp64_null0 1 float empty_heap =
    Some (VPtr (Some float) 1, Heap [(1, 4)] (fun _ => 0) [4]) /\
  1 <> NULL.
Proof. split; [reflexivity|]. split; [reflexivity|discriminate]. Qed.

(** ** Failure *)

(** C4. The call always returns a value; it asks the allocator once; when the
    allocator cannot satisfy the request the value is the null handle and no
    block is created; when it can, the value is a non-null handle to a block
    of the size asked for. *)
Theorem failure_is_null_handle (p : platform) (count : Z) (k : ctype)
  (h : heap) :
  exists a h',
    allocate p count k h = Some (VPtr (Some k) a, h') /\
    requests h' = requests h ++ [request_size p count k] /\
    (fst (malloc p (request_size p count k) h) = NULL ->
     a = NULL /\ blocks h' = blocks h) /\
    (fst (malloc p (request_size p count k) h) <> NULL ->
     a <> NULL /\ block_size (blocks h') a = Some (request_size p count k)).
Proof.
  exists (fst (malloc p (request_size p count k) h)),
         (snd (malloc p (request_size p count k) h)).
  split; [apply allocate_malloc|].
  split; [apply malloc_requests|].
  split.
  - intros H. split; [exact H|apply malloc_null; exact H].
  - intros H. split; [exact H|apply malloc_block_size; exact H].
Qed.

(** ** The argument of the macro *)

(** An argument that is an operand of a product keeps the contract. *)
Lemma operand_keeps_contract (p : platform) (k : ctype) (a : expr)
  (rho : env) (h : heap) :
  pure a = true -> keeps_contract p k (show 1 a) rho h.
Proof.
  intros Ha. exists (value_of p rho a). split.
  - unfold arg_value. rewrite parse_show_operand, (eval_pure p rho a h Ha).
    reflexivity.
  - unfold invoke. rewrite invoke_with_operand.
    rewrite (eval_with_pure _ p rho a h Ha). reflexivity.
Qed.


(** An argument that is a sum or a difference: the element size multiplies
    the right operand only. *)
Lemma sum_request (p : platform) (k : ctype) (op : binop) (l r : expr)
  (rho : env) (h : heap) :
  prec op = 0%nat -> pure l = true -> pure r = true ->
  let nbytes :=
    arith p op (value_of p rho l) (wrap p (value_of p rho r * size_of k)) in
  invoke p (entry_point k) (show 0 (EBin op l r)) rho h =
  Some (VPtr (Some k) (fst (malloc p nbytes h)), snd (malloc p nbytes h)).
Proof.
  intros Hop Hl Hr nbytes. unfold invoke, invoke_with.
  rewrite (parse_sum k op l r Hop), eval_with_sized_call. simpl.
  rewrite (eval_with_pure _ p rho l h Hl), (eval_with_pure _ p rho r h Hr).
  reflexivity.
Qed.



(** [malloc_float(a + b)] with [a = 1] and [b = 1] asks for 5 bytes, not 8. *)
Example sum_argument_request :
  invoke lp64 malloc_float [TId "a"; TPlus; TId "b"] (fun _ => 1) empty_heap
  = Some (VPtr (Some float) 1, Heap [(1, 5)] (fun _ => 0) [5]).
Proof. reflexivity. Qed.


(** ** Element sizes *)

(** C6. A complex element is twice its real component: 4, 8, 8 and 16
    bytes. *)
Theorem element_sizes :
  size_of Complex64 = 2 * size_of Real32 /\
  size_of Complex128 = 2 * size_of Real64 /\
  size_of Real32 = 4 /\
  size_of Real64 = 8 /\
  size_of Complex64 = 8 /\
  size_of Complex128 = 16.
Proof. repeat split; reflexivity. Qed.

(** [malloc_float(1 << k)] with [k = 2] asks for [1 << 2 * 4] bytes, 256,
    not for the 16 bytes of [1 << 2] floats. *)
Example shift_argument_request :
  invoke lp64 malloc_float [TNum 1; TOp Shl; TId "k"] (fun _ => 2) empty_heap
  = Some (VPtr (Some float) 1, Heap [(1, 256)] (fun _ => 0) [256]).
Proof. reflexivity. Qed.

(** [malloc_double(c ? a : b)] asks for [a] bytes when [c] holds. *)
Example conditional_argument_request :
  invoke lp64 malloc_double [TId "c"; TQuestion; TId "a"; TColon; TId "b"]
    (fun _ => 3) empty_heap
  = Some (VPtr (Some double) 1, Heap [(1, 3)] (fun _ => 0) [3]).
Proof. reflexivity. Qed.

(** ** Content of a fresh buffer *)

(** C7. The call initialises nothing: the heap after it, bytes included, is
    the heap that the allocator leaves.  What the fresh buffer holds is
    therefore what the allocator left in it, and the contract of the
    allocator does not say what that is: for every byte value [v] there is an
    allocator that meets the contract, succeeds where [malloc] does, and
    hands the buffer out with [v] in every byte, so no value, zero included,
    is guaranteed. *)
Theorem fresh_contents_unspecified (p : platform) (count : Z) (k : ctype)
  (h : heap) :
  (forall al : allocator,
     allocate_with al p count k h =
     Some (VPtr (Some k) (fst (al (request_size p count k) h)),
           snd (al (request_size p count k) h))) /\
  (forall v,
     conforming (malloc_fill p v) /\
     fst (malloc_fill p v (request_size p count k) h)
     = fst (malloc p (request_size p count k) h) /\
     forall a h',
       allocate_with (malloc_fill p v) p count k h
       = Some (VPtr (Some k) a, h') ->
       a <> NULL ->
       forall i, 0 <= i < request_size p count k -> load h' (a + i) = v).
Proof.
  split; [intros al; apply allocate_with_alloc|].
  intros v. split; [apply malloc_fill_conforming|].
  split; [apply malloc_fill_fst|].
  intros a h' Ha Hn i Hi. rewrite allocate_with_alloc in Ha.
  injection Ha as Ea Eh. subst a h'.
  rewrite malloc_fill_fst in *. unfold load. rewrite malloc_fill_bytes.
  destruct (Z.eqb_spec (fst (malloc p (request_size p count k) h)) NULL)
    as [E|_]; [contradiction|].
  unfold fill.
  destruct (Z.leb_spec (fst (malloc p (request_size p count k) h))
              (fst (malloc p (request_size p count k) h) + i)); [|lia].
  destruct (Z.ltb_spec (fst (malloc p (request_size p count k) h) + i)
              (fst (malloc p (request_size p count k) h)
               + request_size p count k)); [reflexivity|lia].
Qed.

(** Four floats from an allocator that leaves 0xAA behind, and from one that
    leaves zeros. *)
Example fresh_buffer_not_zero :
  exists h',
    allocate_with (malloc_fill lp64 170) lp64 4 float empty_heap
    = Some (VPtr (Some float) 1, h') /\
    map (load h') [1; 2; 3; 4] = [170; 170; 170; 170].
Proof. eexists. split; reflexivity. Qed.

Example fresh_buffer_zero :
  exists h',
    allocate_with (malloc_fill lp64 0) lp64 4 float empty_heap
    = Some (VPtr (Some float) 1, h') /\
    map (load h') [1; 2; 3; 4] = [0; 0; 0; 0].
Proof. eexists. split; reflexivity. Qed.

(** ** One operation, four instances *)

(** C8. Each entry point is the generic replacement list at its element
    type, and a call of it is the generic operation of the specification:
    ask the allocator for [count * size_of kind] bytes, taken in address-width
    arithmetic, and type the answer as a pointer to [kind].  Where the product
    fits the address width the request is for the product itself. *)
Theorem entry_points_generic (k : ctype) :
  entry_point k = generic_macro k /\
  (forall p count h,
     allocate p count k h = Some (generic_allocate p count k h)) /\
  (forall p x rho h,
     allocate_var p x k rho h = Some (generic_allocate p (rho x) k h)) /\
  (forall p count h,
     0 <= count -> count * size_of k < 2 ^ addr_bits p ->
     allocate p count k h =
     Some (VPtr (Some k) (fst (malloc p (count * size_of k) h)),
           snd (malloc p (count * size_of k) h))).
Proof.
  split; [destruct k; reflexivity|].
  split; [intros; apply allocate_generic|].
  split; [intros; apply allocate_var_generic|].
  intros p count h Hc Hlt. rewrite allocate_malloc. unfold request_size.
  rewrite wrap_small; [reflexivity|].
  split; [|exact Hlt]. destruct k; unfold size_of; simpl; lia.
Qed.

(** ** Effects *)

(** C9. A call makes one request to the allocator; the heap after the call is
    the one the allocator leaves, which differs from the heap before by that
    request and, on success, by the new block; no byte of memory changes.
    The parameter occurs once in the replacement list, so the same holds for
    any argument without calls: it is evaluated once, and one request
    follows. *)
Theorem one_allocator_request (p : platform) (count : Z) (k : ctype)
  (h : heap) :
  (exists a h',
     allocate p count k h = Some (VPtr (Some k) a, h') /\
     (a, h') = malloc p (request_size p count k) h /\
     requests h' = requests h ++ [request_size p count k] /\
     (forall x, load h' x = load h x) /\
     (blocks h' = blocks h \/
      blocks h' = (a, request_size p count k) :: blocks h)) /\
  (forall rho arg, pure arg = true ->
   exists a h',
     invoke p (entry_point k) (show 1 arg) rho h = Some (VPtr (Some k) a, h') /\
     (a, h') = malloc p (wrap p (value_of p rho arg * size_of k)) h /\
     requests h' =
     requests h ++ [wrap p (value_of p rho arg * size_of k)]).
Proof.
  split.
  - exists (fst (malloc p (request_size p count k) h)),
           (snd (malloc p (request_size p count k) h)).
    split; [apply allocate_malloc|].
    split; [destruct (malloc p (request_size p count k) h); reflexivity|].
    split; [apply malloc_requests|].
    split; [unfold load; rewrite malloc_bytes; reflexivity|].
    destruct (malloc_cases p (request_size p count k) h); simpl; auto.
  - intros rho arg Hp.
    destruct (operand_keeps_contract p k arg rho h Hp) as [v [Hv Hi]].
    unfold arg_value in Hv.
    rewrite parse_show_operand, (eval_pure p rho arg h Hp) in Hv.
    injection Hv as Hv. subst v.
    eexists. eexists. split; [exact Hi|].
    split; [destruct (malloc p _ h); reflexivity|apply malloc_requests].
Qed.

(** C10. Under every allocator that meets the contract of [malloc], two
    consecutive successful calls with the same arguments return different
    addresses, no byte of one buffer is a byte of the other, a byte written
    into either buffer leaves every byte of the other as it was, and the
    second call leaves the content of the first buffer alone. *)
Theorem consecutive_buffers_disjoint (al : allocator) (p : platform)
  (count : Z) (k : ctype) (h : heap) (a1 : Z) (h1 : heap) (a2 : Z)
  (h2 : heap) :
  conforming al -> 0 < count ->
  allocate_with al p count k h = Some (VPtr (Some k) a1, h1) -> a1 <> NULL ->
  allocate_with al p count k h1 = Some (VPtr (Some k) a2, h2) -> a2 <> NULL ->
  a1 <> a2 /\
  (forall i j,
     0 <= i < request_size p count k -> 0 <= j < request_size p count k ->
     a1 + i <> a2 + j) /\
  (forall i j v,
     0 <= i < request_size p count k -> 0 <= j < request_size p count k ->
     load (store h2 (a1 + i) v) (a2 + j) = load h2 (a2 + j) /\
     load (store h2 (a2 + j) v) (a1 + i) = load h2 (a1 + i)) /\
  (forall i, 0 <= i < request_size p count k ->
     load h2 (a1 + i) = load h1 (a1 + i)).
Proof.
  intros Hal _ H1 Hn1 H2 Hn2. rewrite allocate_with_alloc in H1.
  injection H1 as Ea1 Eh1. rewrite allocate_with_alloc in H2.
  injection H2 as Ea2 Eh2.
  set (n := request_size p count k) in *.
  assert (Hlive : In (a1, n) (blocks h1)).
  { rewrite <- Eh1, <- Ea1. rewrite (conf_block al Hal n h); [left; reflexivity|].
    rewrite Ea1. exact Hn1. }
  assert (Hap : apart a2 n a1 n).
  { rewrite <- Ea2. apply (conf_apart al Hal n h1 a1 n); [|exact Hlive].
    rewrite Ea2. exact Hn2. }
  assert (Hdiff : forall i j, 0 <= i < n -> 0 <= j < n -> a1 + i <> a2 + j)
    by (intros i j Hi Hj; unfold apart in Hap; lia).
  split; [unfold apart in Hap; lia|].
  split; [exact Hdiff|].
  split.
  - intros i j v Hi Hj. specialize (Hdiff i j Hi Hj).
    unfold load, store. simpl.
    destruct (Z.eqb_spec (a2 + j) (a1 + i)) as [E|_]; [lia|].
    destruct (Z.eqb_spec (a1 + i) (a2 + j)) as [E|_]; [lia|].
    split; reflexivity.
  - intros i Hi. unfold load. rewrite <- Eh2.
    apply (conf_live al Hal n h1 a1 n i Hlive Hi).
Qed.

Lemma consecutive_buffers_disjoint_witness :
  1 <> 17 /\
  (forall i j,
     0 <= i < request_size lp64 4 float ->
     0 <= j < request_size lp64 4 float -> 1 + i <> 17 + j) /\
  (forall i j v,
     0 <= i < request_size lp64 4 float ->
     0 <= j < request_size lp64 4 float ->
     load (store (Heap [(17, 16); (1, 16)] (fun _ => 0) [16; 16]) (1 + i) v)
       (17 + j)
     = load (Heap [(17, 16); (1, 16)] (fun _ => 0) [16; 16]) (17 + j) /\
     load (store (Heap [(17, 16); (1, 16)] (fun _ => 0) [16; 16]) (17 + j) v)
       (1 + i)
     = load (Heap [(17, 16); (1, 16)] (fun _ => 0) [16; 16]) (1 + i)) /\
  (forall i, 0 <= i < request_size lp64 4 float ->
     load (Heap [(17, 16); (1, 16)] (fun _ => 0) [16; 16]) (1 + i)
     = load (Heap [(1, 16)] (fun _ => 0) [16]) (1 + i)).
Proof.
  apply (consecutive_buffers_disjoint (malloc lp64) lp64 4 float empty_heap
           1 (Heap [(1, 16)] (fun _ => 0) [16])
           17 (Heap [(17, 16); (1, 16)] (fun _ => 0) [16; 16])).
  - apply malloc_conforming.
  - lia.
  - reflexivity.
  - discriminate.
  - reflexivity.
  - discriminate.
Defined.

(** The same two calls on the allocator that works downwards: the second
    buffer lies below the first. *)
Example consecutive_buffers_downwards :
  exists h1 h2,
    allocate_with (malloc_down lp64) lp64 4 float empty_heap
    = Some (VPtr (Some float) (2 ^ 47 - 16), h1) /\
    allocate_with (malloc_down lp64) lp64 4 float h1
    = Some (VPtr (Some float) (2 ^ 47 - 32), h2).
Proof. eexists. eexists. split; reflexivity. Qed.

(** The scenario of the specification: 1024 doubles take 8192 bytes. *)
Example allocate_1024_doubles :
  allocate lp64 1024 Real64 empty_heap
  = Some (VPtr (Some Real64) 1, Heap [(1, 8192)] (fun _ => 0) [8192]).
Proof. reflexivity. Qed.

(** * Further properties of the four macros *)

Lemma size_of_range (k : ctype) : 4 <= size_of k <= 16.
Proof. destruct k; unfold size_of; simpl; lia. Qed.

(** Every element size is a power of two: [size_of k = 2 ^ log2_size k]. *)
Definition log2_size (k : ctype) : Z :=
  match k with
  | float => 2
  | double => 3
  | complex64 => 3
  | complex128 => 4
  end.

Lemma size_of_pow2 (k : ctype) : size_of k = 2 ^ log2_size k.
Proof. destruct k; reflexivity. Qed.

Lemma pow2_positive (p : platform) : 0 <= addr_bits p -> 0 < 2 ^ addr_bits p.
Proof. intros H. apply Z.pow_pos_nonneg; lia. Qed.

(** ** What a sum in the argument costs *)

(** For an argument [l + r] or [l - r] the bytes requested fall short of the
    bytes that [l op r] elements take by [l * (size_of K - 1)], in
    address-width arithmetic. *)
Theorem additive_argument_shortfall (p : platform) (k : ctype) (op : binop)
  (l r : expr) (rho : env) (h : heap) :
  prec op = 0%nat -> pure l = true -> pure r = true ->
  exists nbytes,
    invoke p (entry_point k) (show 0 (EBin op l r)) rho h =
      Some (VPtr (Some k) (fst (malloc p nbytes h)), snd (malloc p nbytes h)) /\
    wrap p (nbytes + value_of p rho l * (size_of k - 1)) =
    wrap p (value_of p rho (EBin op l r) * size_of k).
Proof.
  intros Hop Hl Hr.
  exists (arith p op (value_of p rho l)
            (wrap p (value_of p rho r * size_of k))).
  split; [apply (sum_request p k op l r rho h Hop Hl Hr)|].
  simpl value_of.
  set (vl := value_of p rho l). set (vr := value_of p rho r).
  set (s := size_of k).
  destruct op; simpl in Hop; try discriminate; unfold arith, wrap.
  - rewrite Zplus_mod_idemp_l, Zmult_mod_idemp_l.
    replace (vl + (vr * s) mod 2 ^ addr_bits p + vl * (s - 1))
      with ((vr * s) mod 2 ^ addr_bits p + vl * s) by ring.
    rewrite Zplus_mod_idemp_l. f_equal. ring.
  - rewrite Zplus_mod_idemp_l, Zmult_mod_idemp_l.
    replace (vl - (vr * s) mod 2 ^ addr_bits p + vl * (s - 1))
      with (vl * s - (vr * s) mod 2 ^ addr_bits p) by ring.
    rewrite Zminus_mod_idemp_r. f_equal. ring.
Qed.

Lemma additive_argument_shortfall_witness :
  exists nbytes,
    invoke lp64 (entry_point float)
      (show 0 (EBin Sub (EVar "a") (EVar "b"))) (fun _ => 1) empty_heap =
      Some (VPtr (Some float) (fst (malloc lp64 nbytes empty_heap)),
            snd (malloc lp64 nbytes empty_heap)) /\
    wrap lp64 (nbytes + value_of lp64 (fun _ => 1) (EVar "a")
                        * (size_of float - 1)) =
    wrap lp64 (value_of lp64 (fun _ => 1) (EBin Sub (EVar "a") (EVar "b"))
               * size_of float).
Proof.
  apply (additive_argument_shortfall lp64 float Sub (EVar "a") (EVar "b")
           (fun _ => 1) empty_heap); reflexivity.
Defined.

(** Where nothing wraps, a sum argument [l + r] with [l > 0] asks for
    [l + r * size_of K] bytes, strictly fewer than the [(l + r) * size_of K]
    that [l + r] elements take. *)
Theorem sum_argument_underallocates (p : platform) (k : ctype) (l r : expr)
  (rho : env) (h : heap) :
  pure l = true -> pure r = true ->
  0 < value_of p rho l -> 0 <= value_of p rho r ->
  (value_of p rho l + value_of p rho r) * size_of k < 2 ^ addr_bits p ->
  exists nbytes,
    invoke p (entry_point k) (show 0 (EBin Add l r)) rho h =
      Some (VPtr (Some k) (fst (malloc p nbytes h)), snd (malloc p nbytes h)) /\
    nbytes = value_of p rho l + value_of p rho r * size_of k /\
    wrap p (value_of p rho (EBin Add l r) * size_of k) =
      (value_of p rho l + value_of p rho r) * size_of k /\
    nbytes < (value_of p rho l + value_of p rho r) * size_of k.
Proof.
  intros Hl Hr Hvl Hvr Hfit.
  pose proof (size_of_range k) as Hs.
  exists (arith p Add (value_of p rho l)
            (wrap p (value_of p rho r * size_of k))).
  split; [apply (sum_request p k Add l r rho h eq_refl Hl Hr)|].
  simpl value_of.
  set (vl := value_of p rho l) in *. set (vr := value_of p rho r) in *.
  set (s := size_of k) in *. unfold arith.
  assert (E1 : wrap p (vr * s) = vr * s) by (apply wrap_small; nia).
  assert (E2 : wrap p (vl + vr * s) = vl + vr * s) by (apply wrap_small; nia).
  assert (E3 : wrap p (vl + vr) = vl + vr) by (apply wrap_small; nia).
  rewrite E1, E2, E3.
  split; [reflexivity|].
  split; [apply wrap_small; nia|nia].
Qed.

Lemma sum_argument_underallocates_witness :
  exists nbytes,
    invoke lp64 (entry_point double)
      (show 0 (EBin Add (ENum 3) (ENum 5))) no_vars empty_heap =
      Some (VPtr (Some double) (fst (malloc lp64 nbytes empty_heap)),
            snd (malloc lp64 nbytes empty_heap)) /\
    nbytes = value_of lp64 no_vars (ENum 3)
             + value_of lp64 no_vars (ENum 5) * size_of double /\
    wrap lp64 (value_of lp64 no_vars (EBin Add (ENum 3) (ENum 5))
               * size_of double) =
      (value_of lp64 no_vars (ENum 3) + value_of lp64 no_vars (ENum 5))
      * size_of double /\
    nbytes < (value_of lp64 no_vars (ENum 3) + value_of lp64 no_vars (ENum 5))
             * size_of double.
Proof.
  apply (sum_argument_underallocates lp64 double (ENum 3) (ENum 5)
           no_vars empty_heap);
    try reflexivity; vm_compute; congruence.
Defined.

(** ** The size requested for a count *)

(** For a count [count >= 0] the request never exceeds
    [count * size_of K]; it lies within the address width, and it is
    [count * size_of K] exactly when that product fits the address width: an
    overflowing count always gets a smaller buffer, never a larger one. *)
Theorem request_never_exceeds (p : platform) (count : Z) (k : ctype)
  (h : heap) :
  0 <= addr_bits p -> 0 <= count ->
  exists nbytes a h',
    allocate p count k h = Some (VPtr (Some k) a, h') /\
    requests h' = requests h ++ [nbytes] /\
    0 <= nbytes < 2 ^ addr_bits p /\
    nbytes <= count * size_of k /\
    (nbytes = count * size_of k <-> count * size_of k < 2 ^ addr_bits p).
Proof.
  intros Hw Hc.
  pose proof (size_of_range k) as Hs. pose proof (pow2_positive p Hw) as Hpos.
  exists (request_size p count k),
         (fst (malloc p (request_size p count k) h)),
         (snd (malloc p (request_size p count k) h)).
  split; [apply allocate_malloc|].
  split; [apply malloc_requests|].
  unfold request_size, wrap.
  pose proof (Z.mod_pos_bound (count * size_of k) _ Hpos) as Hb.
  split; [exact Hb|].
  split; [apply Z.mod_le; nia|].
  split.
  - intros E. rewrite <- E. apply Hb.
  - intros Hlt. apply Z.mod_small. nia.
Qed.

Lemma request_never_exceeds_witness :
  exists nbytes a h',
    allocate ilp32 (2 ^ 28 + 1) complex128 empty_heap
      = Some (VPtr (Some complex128) a, h') /\
    requests h' = requests empty_heap ++ [nbytes] /\
    0 <= nbytes < 2 ^ addr_bits ilp32 /\
    nbytes <= (2 ^ 28 + 1) * size_of complex128 /\
    (nbytes = (2 ^ 28 + 1) * size_of complex128 <->
     (2 ^ 28 + 1) * size_of complex128 < 2 ^ addr_bits ilp32).
Proof.
  apply (request_never_exceeds ilp32 (2 ^ 28 + 1) complex128 empty_heap);
    vm_compute; congruence.
Defined.

(** On a platform of at least four address bits the request is always a whole
    number of elements, wrapped or not: it is [size_of K] times the count
    reduced modulo [2 ^ addr_bits / size_of K]. *)
Theorem request_whole_elements (p : platform) (count : Z) (k : ctype)
  (h : heap) :
  4 <= addr_bits p ->
  exists a h',
    allocate p count k h = Some (VPtr (Some k) a, h') /\
    requests h' =
    requests h ++ [(count mod (2 ^ addr_bits p / size_of k)) * size_of k].
Proof.
  intros Hw.
  exists (fst (malloc p (request_size p count k) h)),
         (snd (malloc p (request_size p count k) h)).
  split; [apply allocate_malloc|].
  rewrite malloc_requests. do 2 f_equal.
  unfold request_size, wrap. rewrite size_of_pow2.
  assert (Hj : 0 <= log2_size k <= 4) by (destruct k; simpl; lia).
  assert (Hsplit : 2 ^ addr_bits p
                   = 2 ^ (addr_bits p - log2_size k) * 2 ^ log2_size k).
  { rewrite <- Z.pow_add_r by lia. f_equal. lia. }
  assert (Hnz : 2 ^ log2_size k <> 0) by (apply Z.pow_nonzero; lia).
  assert (Hnz' : 2 ^ (addr_bits p - log2_size k) <> 0)
    by (apply Z.pow_nonzero; lia).
  rewrite Hsplit at 2. rewrite Z.div_mul by exact Hnz.
  rewrite Hsplit. apply Z.mul_mod_distr_r; assumption.
Qed.

Lemma request_whole_elements_witness :
  exists a h',
    allocate lp64 (2 ^ 60 + 3) complex128 empty_heap
      = Some (VPtr (Some complex128) a, h') /\
    requests h' =
    requests empty_heap ++
    [((2 ^ 60 + 3) mod (2 ^ addr_bits lp64 / size_of complex128))
     * size_of complex128].
Proof.
  apply (request_whole_elements lp64 (2 ^ 60 + 3) complex128 empty_heap).
  vm_compute. congruence.
Defined.

(** ** Complex buffers as pairs of reals *)

(** A buffer of [count] complex elements and a buffer of [2 * count] elements
    of the real component are the same request: from the same heap the two
    calls return the same address and leave the same heap, and differ in the
    type of the pointer only. *)
Theorem complex_as_real_pairs (p : platform) (count : Z) (h : heap) :
  (exists a h',
     allocate p count complex64 h = Some (VPtr (Some complex64) a, h') /\
     allocate p (2 * count) float h = Some (VPtr (Some float) a, h')) /\
  (exists a h',
     allocate p count complex128 h = Some (VPtr (Some complex128) a, h') /\
     allocate p (2 * count) double h = Some (VPtr (Some double) a, h')).
Proof.
  split.
  - exists (fst (malloc p (request_size p count complex64) h)),
           (snd (malloc p (request_size p count complex64) h)).
    split; [apply allocate_malloc|]. rewrite allocate_malloc.
    replace (request_size p (2 * count) float)
      with (request_size p count complex64); [reflexivity|].
    unfold request_size, wrap.
    change (size_of complex64) with 8. change (size_of float) with 4.
    f_equal. lia.
  - exists (fst (malloc p (request_size p count complex128) h)),
           (snd (malloc p (request_size p count complex128) h)).
    split; [apply allocate_malloc|]. rewrite allocate_malloc.
    replace (request_size p (2 * count) double)
      with (request_size p count complex128); [reflexivity|].
    unfold request_size, wrap.
    change (size_of complex128) with 16. change (size_of double) with 8.
    f_equal. lia.
Qed.

(** ** Live blocks *)

(** Under every allocator that meets the contract of [malloc], a successful
    call never frees, moves, overlaps or overwrites a block that is live:
    every block of the heap before the call is a block of the heap after it,
    the new buffer is apart from it, and its bytes are unchanged. *)
Theorem fresh_buffer_apart (al : allocator) (p : platform) (count : Z)
  (k : ctype) (h : heap) (a : Z) (h' : heap) :
  conforming al ->
  allocate_with al p count k h = Some (VPtr (Some k) a, h') -> a <> NULL ->
  forall b s, In (b, s) (blocks h) ->
    In (b, s) (blocks h') /\
    apart a (request_size p count k) b s /\
    b <> a /\
    forall i, 0 <= i < s -> load h' (b + i) = load h (b + i).
Proof.
  intros Hal Ha Hn b s Hin. rewrite allocate_with_alloc in Ha.
  injection Ha as Ea Eh. set (n := request_size p count k) in *.
  assert (Hn' : fst (al n h) <> NULL) by (rewrite Ea; exact Hn).
  pose proof (conf_apart al Hal n h b s Hn' Hin) as Hap. rewrite Ea in Hap.
  split; [rewrite <- Eh, (conf_block al Hal n h Hn'); right; exact Hin|].
  split; [exact Hap|].
  split; [unfold apart in Hap; lia|].
  intros i Hi. unfold load. rewrite <- Eh.
  apply (conf_live al Hal n h b s i Hin Hi).
Qed.

Lemma fresh_buffer_apart_witness :
  In (2 ^ 47 - 16, 16)
    (blocks (Heap [(2 ^ 47 - 40, 24); (2 ^ 47 - 16, 16)] (fun _ => 0)
               [16; 24])) /\
  apart (2 ^ 47 - 40) (request_size lp64 3 double) (2 ^ 47 - 16) 16 /\
  2 ^ 47 - 16 <> 2 ^ 47 - 40 /\
  forall i, 0 <= i < 16 ->
    load (Heap [(2 ^ 47 - 40, 24); (2 ^ 47 - 16, 16)] (fun _ => 0) [16; 24])
      (2 ^ 47 - 16 + i)
    = load (Heap [(2 ^ 47 - 16, 16)] (fun _ => 0) [16]) (2 ^ 47 - 16 + i).
Proof.
  apply (fresh_buffer_apart (malloc_down lp64) lp64 3 double
           (Heap [(2 ^ 47 - 16, 16)] (fun _ => 0) [16]) (2 ^ 47 - 40)
           (Heap [(2 ^ 47 - 40, 24); (2 ^ 47 - 16, 16)] (fun _ => 0)
              [16; 24])).
  - apply malloc_down_conforming.
  - reflexivity.
  - discriminate.
  - simpl. left. reflexivity.
Defined.

(** ** A difference that runs below zero *)

(** For an argument [l - r] with [l < r * size_of K] the subtraction wraps:
    the request is for [2 ^ addr_bits - (r * size_of K - l)] bytes.  A heap
    that ends at or below that size cannot hold it, so the call returns the
    null handle and creates no block. *)
Theorem difference_argument_wraps (p : platform) (k : ctype) (l r : expr)
  (rho : env) (h : heap) :
  pure l = true -> pure r = true ->
  0 <= value_of p rho l < value_of p rho r * size_of k ->
  value_of p rho r * size_of k < 2 ^ addr_bits p ->
  heap_end p <=
    2 ^ addr_bits p - (value_of p rho r * size_of k - value_of p rho l) ->
  exists h',
    invoke p (entry_point k) (show 0 (EBin Sub l r)) rho h =
      Some (VPtr (Some k) NULL, h') /\
    requests h' =
      requests h ++
      [2 ^ addr_bits p - (value_of p rho r * size_of k - value_of p rho l)] /\
    blocks h' = blocks h.
Proof.
  intros Hl Hr Hv Hfit Hend.
  pose proof (sum_request p k Sub l r rho h eq_refl Hl Hr) as Hi.
  simpl in Hi. unfold arith in Hi.
  set (vl := value_of p rho l) in *. set (vr := value_of p rho r) in *.
  set (s := size_of k) in *. set (m := 2 ^ addr_bits p) in *.
  assert (E1 : wrap p (vr * s) = vr * s) by (apply wrap_small; fold m; lia).
  assert (E2 : wrap p (vl - vr * s) = m - (vr * s - vl)).
  { unfold wrap. fold m.
    replace (vl - vr * s) with (m - (vr * s - vl) + (-1) * m) by ring.
    rewrite Z_mod_plus_full. apply Z.mod_small. lia. }
  rewrite E1, E2 in Hi.
  set (n := m - (vr * s - vl)) in *.
  exists (snd (malloc p n h)).
  assert (Hnull : fst (malloc p n h) = NULL).
  { pose proof (top_positive (blocks h)) as Ht.
    destruct (malloc_cases p n h); simpl; try reflexivity. lia. }
  rewrite Hnull in Hi.
  split; [exact Hi|].
  split; [apply malloc_requests|apply malloc_null; exact Hnull].
Qed.

Lemma difference_argument_wraps_witness :
  exists h',
    invoke lp64 (entry_point double) (show 0 (EBin Sub (ENum 5) (ENum 1)))
      no_vars empty_heap =
      Some (VPtr (Some double) NULL, h') /\
    requests h' =
      requests empty_heap ++
      [2 ^ addr_bits lp64
       - (value_of lp64 no_vars (ENum 1) * size_of double
          - value_of lp64 no_vars (ENum 5))] /\
    blocks h' = blocks empty_heap.
Proof.
  apply (difference_argument_wraps lp64 double (ENum 5) (ENum 1)
           no_vars empty_heap);
    try reflexivity; vm_compute; try split; congruence.
Defined.
